(** * chess-analysis-script: the reference-data builder and the game analyzer

    A shallow embedding of [src/scripts/generate-data.ts] (the builder) and
    of the analyzer script, with the properties of its specification.

    Conventions of the embedding.
    - A JavaScript string is a [string]; the separators the scripts split
      on (tab, newline, space) are single characters.
    - [undefined] where the scripts can produce it is written out: a
      destructured field that may be missing is an [option string], the
      result of a property read that finds nothing is [Undefined].
    - An object used as a dictionary whose key order is never read is a
      [gmap]; one whose keys or entries are enumerated is an association
      list in creation order ([JS.obj]). The keys are position codes, ECO
      codes, category letters and opening names: none is the name of a
      property every object inherits ([constructor], [toString], ...),
      and inherited properties are left out of the model.
    - A number is a binary64 ([SpecFloat]) where the scripts compute with
      fractions; a counter, which only [++] changes, is an [N] with the
      saturation of [++] at [2^53] written out.
    - What the scripts import (the chess engine, [fetch], the JSON parser,
      the case conversions of strings, [toFixed]) is a class, given by the
      context; the [zod] schemas are written out. A thrown exception is
      the left summand of a result.
    - What the scripts print with [console] is left out, and so are the
      creation of the output directory and the failures of the file
      writes: [Builder.files] is what [main] hands to [writeToData]. *)

From Stdlib Require Import ZArith Lia.
From Stdlib Require Import Strings.Ascii.
From Stdlib Require Import Floats.SpecFloat.
From Stdlib Require Import Numbers.DecimalString.
From stdpp Require Import base option list sorting strings gmap.

(** ** JavaScript built-ins used by the scripts *)

Module JS.

(** [s.split(sep)] for a one-character separator: never empty, one more
    field than there are separators. *)
Fixpoint split (sep : ascii) (s : string) : list string :=
  match s with
  | EmptyString => [EmptyString]
  | String c s' =>
      if decide (c = sep) then EmptyString :: split sep s'
      else match split sep s' with
           | [] => [String c EmptyString]
           | w :: ws => String c w :: ws
           end
  end.

(** [l.join(sep)]. *)
Fixpoint join (sep : string) (l : list string) : string :=
  match l with
  | [] => EmptyString
  | [w] => w
  | w :: ws => w +:+ sep +:+ join sep ws
  end.

(** [l.slice(start)]: a negative [start] counts from the end, and is
    clamped to the whole array. *)
Definition slice_from {A} (start : Z) (l : list A) : list A :=
  let len := Z.of_nat (length l) in
  let k := if (start <? 0)%Z then Z.max (len + start) 0 else Z.min start len in
  drop (Z.to_nat k) l.

(** [l.slice(0, n)]. *)
Definition slice_to {A} (n : nat) (l : list A) : list A := take n l.

(** [s.charAt(0)]: the empty string when there is no first character. *)
Definition charAt0 (s : string) : string :=
  match s with
  | EmptyString => EmptyString
  | String c _ => String c EmptyString
  end.

(** Truthiness of a string: [Boolean(s)], [!s]. *)
Definition truthy_str (s : string) : bool :=
  match s with EmptyString => false | _ => true end.

(** Whether a character occurs in a string. *)
Fixpoint occurs (c : ascii) (s : string) : bool :=
  match s with
  | EmptyString => false
  | String a s' => if decide (a = c) then true else occurs c s'
  end.

(** *** Objects whose keys are enumerated

    [Object.keys] and [Object.entries] list the own string keys of an
    object in the order of their creation, after the keys that are
    canonical array indices, which come first in ascending order. An
    [obj] keeps the entries in creation order; [entries] applies the
    rule on array indices. *)
Abbreviation obj V := (list (string * V)) (only parsing).

Fixpoint get {V} (k : string) (o : obj V) : option V :=
  match o with
  | [] => None
  | (k', v) :: o' => if decide (k' = k) then Some v else get k o'
  end.

(** [o[k] = v]: an existing key keeps its place. *)
Fixpoint set {V} (k : string) (v : V) (o : obj V) : obj V :=
  match o with
  | [] => [(k, v)]
  | (k', v') :: o' =>
      if decide (k' = k) then (k, v) :: o' else (k', v') :: set k v o'
  end.

(** The value of a canonical array index: ["0"], or digits with no
    leading zero, at most [2^32 - 2]. *)
Definition array_index (k : string) : option N :=
  match NilEmpty.uint_of_string k with
  | Some d =>
      let n := N.of_uint d in
      if decide (NilEmpty.string_of_uint (N.to_uint n) = k /\ (n < 2 ^ 32 - 1)%N)
      then Some n else None
  | None => None
  end.

Fixpoint insert_index {V} (n : N) (e : string * V) (l : list (N * (string * V)))
  : list (N * (string * V)) :=
  match l with
  | [] => [(n, e)]
  | (m, e') :: l' =>
      if (n <? m)%N then (n, e) :: l else (m, e') :: insert_index n e l'
  end.

Fixpoint index_entries {V} (o : obj V) : list (N * (string * V)) :=
  match o with
  | [] => []
  | (k, v) :: o' =>
      match array_index k with
      | Some n => insert_index n (k, v) (index_entries o')
      | None => index_entries o'
      end
  end.

Fixpoint named_entries {V} (o : obj V) : list (string * V) :=
  match o with
  | [] => []
  | (k, v) :: o' =>
      match array_index k with
      | Some _ => named_entries o'
      | None => (k, v) :: named_entries o'
      end
  end.

(** [Object.entries(o)]. *)
Definition entries {V} (o : obj V) : list (string * V) :=
  map snd (index_entries o) ++ named_entries o.

(** [Object.keys(o)]. *)
Definition keys {V} (o : obj V) : list string := map fst (entries o).

End JS.

(** ** What the scripts import *)

(** One entry of [chess.history({ verbose: true })]: the squares of the
    move, the promotion piece when there is one, and the position string
    after the move. *)
Record Move := {
  move_from : string;
  move_to : string;
  promotion : option string;
  after : string;
}.

(** The engine after a successful [loadPgn]: what [history] and [fen]
    return. *)
Record Chess := {
  history : list Move;
  fen : string;
}.

(** [new Chess()] followed by [chess.loadPgn(pgn)]: [None] when the engine
    throws. The argument is [None] where the caller passes [undefined]. *)
Class ChessEngine := loadPgn : option string -> option Chess.

(** [String.prototype.toLowerCase] and [toUpperCase]. *)
Class StringCase := {
  toLowerCase : string -> string;
  toUpperCase : string -> string;
}.

(** A settled [fetch]: the fields of the response the scripts could read. *)
Record Response := {
  ok : bool;
  status : nat;
  statusText : string;
  body : string;
}.

(** [fetch(url)]: [None] when the request itself fails. *)
Class Network := fetch : string -> option Response.

(** What the scripts throw or let through. *)
Inductive error :=
| Error (message : string)      (* [new Error(message)] *)
| FetchError (url : string)     (* [fetch] rejected *)
| EngineError                   (* [loadPgn] threw *)
| SyntaxError                   (* [res.json()] rejected *)
| ZodError.                     (* [schema.parse] threw *)

(** A computation that returns or throws. *)
Abbreviation completion A := (sum error A) (only parsing).

(** [Promise.all(ps)]: the promises are created in list order and settle
    in an order of their own, [sched] (indices into [ps]; a promise it
    leaves out settles after those it names, in list order). The first one
    to reject rejects the whole; otherwise the values come back by
    position. *)
Fixpoint first_rejection {A} (ps : list (completion A)) (order : list nat) : option error :=
  match order with
  | [] => None
  | i :: order' =>
      match ps !! i with
      | Some (inl e) => Some e
      | _ => first_rejection ps order'
      end
  end.

Definition fulfilled {A} (p : completion A) : option A :=
  match p with inl _ => None | inr a => Some a end.

Definition promise_all {A} (sched : list nat) (ps : list (completion A)) : completion (list A) :=
  match first_rejection ps (sched ++ seq 0 (length ps)) with
  | Some e => inl e
  | None => inr (omap fulfilled ps)
  end.

(** The first four fields of a position string:
    [fen.split(" ").slice(0, 4).join(" ")]. *)
Definition epd_of (fen : string) : string :=
  JS.join " " (JS.slice_to 4 (JS.split " " fen)).

(** The record of an opening ([OpeningData]). [name] and [pgn] come from
    destructuring a split row and are [undefined] on a row with fewer than
    three fields. *)
Record OpeningData := {
  eco : string;
  name : option string;
  pgn : option string;
  epd : string;
  uci : string;
}.

(** ** The reference-data builder ([generate-data.ts]) *)

Module Builder.

Definition categories : list string := ["a"; "b"; "c"; "d"; "e"].

Definition category_url (category : string) : string :=
  "https://raw.githubusercontent.com/lichess-org/chess-openings/master/"
    +:+ category +:+ ".tsv".

Section Fetch.
Context {net : Network}.

(** The promise of one category. *)
Definition fetchCategory (category : string) : completion (list string) :=
  match fetch (category_url category) with
  | None => inl (FetchError (category_url category))
  | Some res =>
      if ok res
      then inr (JS.slice_from 1 (JS.split "010" (body res)))
      else inl (Error ("Failed to fetch category " +:+ category +:+ ": "
                         +:+ statusText res))
  end.

(** [fetchOpenings]: the error is logged and thrown again. *)
Definition fetchOpenings (sched : list nat) : completion (list string) :=
  match promise_all sched (map fetchCategory categories) with
  | inl e => inl e
  | inr lines => inr (filter (fun row => JS.truthy_str row = true) (concat lines))
  end.
End Fetch.

Section Rows.
Context {engine : ChessEngine}.

Definition moveUci (move : Move) : string :=
  let moveUci := move_from move +:+ move_to move in
  match promotion move with
  | Some p => if JS.truthy_str p then moveUci +:+ p else moveUci
  | None => moveUci
  end.

(** The body of the [forEach] of [processRows], up to the call of the
    handler. *)
Definition processRow (row : string) : completion OpeningData :=
  let fields := JS.split "009" row in
  let eco := default "" (fields !! 0) in
  let name := fields !! 1 in
  let pgn := fields !! 2 in
  match loadPgn pgn with
  | None => inl EngineError
  | Some chess =>
      let uci := foldl (fun uci move => uci +:+ moveUci move) "" (history chess) in
      let epd := epd_of (fen chess) in
      inr {| eco := eco; name := name; pgn := pgn; epd := epd; uci := uci |}
  end.

(** [processRows(rows, handler)]: the handler acts on the state [S] it
    closes over; a row the engine rejects ends the loop with its
    exception. *)
Fixpoint processRows {S} (rows : list string) (handler : OpeningData -> S -> S)
    (st : S) : completion S :=
  match rows with
  | [] => inr st
  | row :: rows' =>
      match processRow row with
      | inl e => inl e
      | inr openingData => processRows rows' handler (handler openingData st)
      end
  end.
End Rows.

(** The four tables [main] fills. *)
Record Lookups := {
  epdLookup : gmap string OpeningData;
  ecoLookup : JS.obj (list OpeningData);
  categoryLookup : JS.obj (list OpeningData);
  openingList : list OpeningData;
}.

Definition empty_lookups : Lookups :=
  {| epdLookup := ∅; ecoLookup := []; categoryLookup := []; openingList := [] |}.

(** [if (!o[k]) o[k] = []; o[k].push(v)]. *)
Definition push_at {V} (k : string) (v : V) (o : JS.obj (list V)) : JS.obj (list V) :=
  match JS.get k o with
  | None => JS.set k [v] o
  | Some vs => JS.set k (vs ++ [v]) o
  end.

Section Main.
Context {strcase : StringCase}.

(** The handler [main] passes to [processRows]. *)
Definition handler (openingData : OpeningData) (st : Lookups) : Lookups :=
  let eco := eco openingData in
  let category := toUpperCase (JS.charAt0 eco) in
  {| epdLookup := <[epd openingData := openingData]> (epdLookup st);
     ecoLookup := push_at eco openingData (ecoLookup st);
     categoryLookup := push_at category openingData (categoryLookup st);
     openingList := openingList st ++ [openingData] |}.

(** The tables after the records [rs], in order. *)
Definition build (rs : list OpeningData) : Lookups :=
  foldl (fun st r => handler r st) empty_lookups rs.

(** What a file is written from. *)
Inductive FileData :=
| OpeningArray (l : list OpeningData)
| ListTable (t : JS.obj (list OpeningData))
| RecordTable (t : gmap string OpeningData)
| KeyArray (l : list string).

(** The five [writeToData] calls of [main], in the order of the array
    given to [Promise.all]. *)
Definition files (st : Lookups) : list (string * FileData) :=
  [ ("opening-list.json", OpeningArray (openingList st));
    ("eco-lookup.json", ListTable (ecoLookup st));
    ("category-lookup.json", ListTable (categoryLookup st));
    ("epd-lookup.json", RecordTable (epdLookup st));
    ("eco-list.json", KeyArray (JS.keys (ecoLookup st))) ].

Context {net : Network} {engine : ChessEngine}.

(** [main]: every exception of the chain is caught and logged, and
    nothing is written then. *)
Definition main (sched : list nat) : completion (list (string * FileData)) :=
  match fetchOpenings sched with
  | inl e => inl e
  | inr rows =>
      match processRows rows handler empty_lookups with
      | inl e => inl e
      | inr st => inr (files st)
      end
  end.
End Main.

End Builder.

(** ** The game analyzer *)

(** IEEE 754 binary64, the numbers of JavaScript. *)
Abbreviation float64 := spec_float (only parsing).

Module F64.
Definition prec : Z := 53.
Definition emax : Z := 1024.
Definition zero : float64 := S754_zero false.
Definition of_N (n : N) : float64 := binary_normalize prec emax (Z.of_N n) 0 false.
Definition div : float64 -> float64 -> float64 := SFdiv prec emax.
Definition mul : float64 -> float64 -> float64 := SFmul prec emax.
Definition sub : float64 -> float64 -> float64 := SFsub prec emax.
(** [x > 0]. *)
Definition positive (x : float64) : bool := SFltb zero x.
End F64.

(** A parsed JSON text. An object lists its own properties, each once. *)
#[warnings="-register-all"]
Inductive json :=
| JNull
| JBool (b : bool)
| JNumber (x : float64)
| JString (s : string)
| JArray (items : list json)
| JObject (props : list (string * json)).

(** [res.json()] on the body of a response: [None] when the text is not
    JSON. *)
Class JsonParser := json_parse : string -> option json.

(** [n.toFixed(2)]. *)
Class NumberFormat := toFixed2 : float64 -> string.

(** *** The [zod] schemas

    A schema reads a value that may be missing ([None]: the property is
    absent) and returns the parsed value, or [None] when [parse] throws.
    [z.object] keeps the declared properties only. *)
Module z.
Definition schema (A : Type) : Type := option json -> option A.

Definition string : schema String.string :=
  fun v => match v with Some (JString s) => Some s | _ => None end.

Definition number : schema float64 :=
  fun v => match v with
           | Some (JNumber S754_nan) => None
           | Some (JNumber x) => Some x
           | _ => None
           end.

Definition boolean : schema bool :=
  fun v => match v with Some (JBool b) => Some b | _ => None end.

Definition optional {A} (s : schema A) : schema (option A) :=
  fun v => match v with None => Some None | Some _ => Some <$> s v end.

Definition array {A} (s : schema A) : schema (list A) :=
  fun v => match v with
           | Some (JArray items) => mapM (fun x => s (Some x)) items
           | _ => None
           end.

(** The properties of an object, for the fields of [z.object]. *)
Definition object {A} (fields : JS.obj json -> option A) : schema A :=
  fun v => match v with Some (JObject props) => fields props | _ => None end.

Definition field {A} (k : String.string) (s : schema A) (props : JS.obj json) : option A :=
  s (JS.get k props).
End z.

Record Player := {
  rating : float64;
  result : string;
  player_id : string;
  username : string;
  player_uuid : string;
}.

Record Accuracies := {
  accuracy_white : float64;
  accuracy_black : float64;
}.

Record Game := {
  url : string;
  game_pgn : string;
  time_control : string;
  end_time : float64;
  rated : bool;
  tcn : option string;
  uuid : string;
  initial_setup : string;
  game_fen : string;
  time_class : string;
  rules : string;
  white : Player;
  black : Player;
  accuracies : option Accuracies;
}.

Definition archiveSchema : z.schema (list string) :=
  z.object (z.field "archives" (z.array z.string)).

Definition playerSchema : z.schema Player :=
  z.object (fun o =>
    rating ← z.field "rating" z.number o;
    result ← z.field "result" z.string o;
    id ← z.field "@id" z.string o;
    username ← z.field "username" z.string o;
    uuid ← z.field "uuid" z.string o;
    Some {| rating := rating; result := result; player_id := id;
            username := username; player_uuid := uuid |}).

Definition accuraciesSchema : z.schema (option Accuracies) :=
  z.optional (z.object (fun o =>
    w ← z.field "white" z.number o;
    b ← z.field "black" z.number o;
    Some {| accuracy_white := w; accuracy_black := b |})).

Definition gameSchema : z.schema Game :=
  z.object (fun o =>
    url ← z.field "url" z.string o;
    pgn ← z.field "pgn" z.string o;
    time_control ← z.field "time_control" z.string o;
    end_time ← z.field "end_time" z.number o;
    rated ← z.field "rated" z.boolean o;
    tcn ← z.field "tcn" (z.optional z.string) o;
    uuid ← z.field "uuid" z.string o;
    initial_setup ← z.field "initial_setup" z.string o;
    fen ← z.field "fen" z.string o;
    time_class ← z.field "time_class" z.string o;
    rules ← z.field "rules" z.string o;
    white ← z.field "white" playerSchema o;
    black ← z.field "black" playerSchema o;
    accuracies ← z.field "accuracies" accuraciesSchema o;
    Some {| url := url; game_pgn := pgn; time_control := time_control;
            end_time := end_time; rated := rated; tcn := tcn; uuid := uuid;
            initial_setup := initial_setup; game_fen := fen;
            time_class := time_class; rules := rules; white := white;
            black := black; accuracies := accuracies |}).

Definition gamesDataSchema : z.schema (list Game) :=
  z.object (z.field "games" (z.array gameSchema)).

(** What [identifyOpening] returns: [null], the [undefined] of a property
    read that found nothing, or a record of the index. *)
Inductive Opening :=
| Null
| Undefined
| Found (data : OpeningData).

(** [!!opening]. *)
Definition matched (o : Opening) : bool :=
  match o with Found _ => true | _ => false end.

Record GameWithOpening := {
  game : Game;
  opening : Opening;
}.

(** What the analyzer does to the outside, in order. *)
Inductive Event :=
| Fetched (url : string)
| Replayed (pgn : string).

(** A computation with its events: it returns or throws. *)
Abbreviation Eff A := (prod (list Event) (completion A)) (only parsing).

Module Eff.
Definition ret {A} (a : A) : Eff A := ([], inr a).
Definition throw {A} (e : error) : Eff A := ([], inl e).
Definition emit (ev : Event) : Eff unit := ([ev], inr tt).
Definition bind {A B} (m : Eff A) (k : A -> Eff B) : Eff B :=
  match m with
  | (t, inl e) => (t, inl e)
  | (t, inr a) => let '(t', r) := k a in (t ++ t', r)
  end.
(** A value that throws [e] when it is missing. *)
Definition orThrow {A} (e : error) (v : option A) : Eff A :=
  match v with Some a => ret a | None => throw e end.
Definition events {A} (m : Eff A) : list Event := fst m.
Definition outcome {A} (m : Eff A) : completion A := snd m.
End Eff.

Notation "x <~ m ; k" := (Eff.bind m (fun x => k))
  (at level 20, m at level 100, k at level 200, only parsing).

(** The URLs requested, in order. *)
Definition fetched_urls (t : list Event) : list string :=
  omap (fun ev => match ev with Fetched url => Some url | Replayed _ => None end) t.

Module Analyzer.

Definition archives_url (username : string) : string :=
  "https://api.chess.com/pub/player/" +:+ username +:+ "/games/archives".

Section Identify.
Context {engine : ChessEngine}.
(** The imported [epd-lookup.json]. *)
Variable epdLookup : gmap string OpeningData.

(** [epdLookup[epd]]. *)
Definition probe (epd : string) : Opening :=
  match epdLookup !! epd with
  | Some data => Found data
  | None => Undefined
  end.

(** The [while] loop of [identifyOpening]. [stack] is [history] read
    from its end: [history.at(-1)] is its head and [history.pop()]
    leaves its tail. *)
Fixpoint scan (result : Opening) (stack : list Move) : Opening :=
  if matched result then result
  else match stack with
       | [] => result
       | move :: stack' => scan (probe (epd_of (after move))) stack'
       end.

Definition identifyOpening (pgn : string) : Eff Opening :=
  if negb (JS.truthy_str pgn) then Eff.ret Null
  else
    _ <~ Eff.emit (Replayed pgn) ;
    chess <~ Eff.orThrow EngineError (loadPgn (Some pgn)) ;
    Eff.ret (scan Null (rev (history chess))).

Context {net : Network} {parser : JsonParser}.

(** [await fetch(url)], then [await res.json()] and [schema.parse]. *)
Definition request (url : string) : Eff Response :=
  _ <~ Eff.emit (Fetched url) ;
  Eff.orThrow (FetchError url) (fetch url).

Definition decode {A} (schema : z.schema A) (res : Response) : Eff A :=
  j <~ Eff.orThrow SyntaxError (json_parse (body res)) ;
  Eff.orThrow ZodError (schema (Some j)).

(** The [reduce] over the games of one archive. *)
Fixpoint withOpenings (games : list Game) (results : list GameWithOpening)
  : Eff (list GameWithOpening) :=
  match games with
  | [] => Eff.ret results
  | g :: games' =>
      if decide (rules g = "chess") then
        o <~ identifyOpening (game_pgn g) ;
        withOpenings games' (results ++ [{| game := g; opening := o |}])
      else withOpenings games' results
  end.

(** What the callback of one archive does once its response is there. *)
Definition archiveGames (archive : string) : Eff (list GameWithOpening) :=
  res <~ Eff.orThrow (FetchError archive) (fetch archive) ;
  games <~ decode gamesDataSchema res ;
  withOpenings games [].

(** The indices of [order] that are not in [seen], each at its first
    occurrence. *)
Fixpoint arrivals (seen order : list nat) : list nat :=
  match order with
  | [] => []
  | i :: order' =>
      if decide (i ∈ seen) then arrivals seen order'
      else i :: arrivals (i :: seen) order'
  end.

(** The order in which the [n] promises of a [Promise.all] settle:
    the promises [sched] names, in the order in which it names them
    first, and then those it leaves out, in list order. *)
Definition settle_order (sched : list nat) (n : nat) : list nat :=
  arrivals [] (filter (fun i => (i < n)%nat) sched ++ seq 0 n).

(** The events of the callbacks, in the order they settle, up to the
    first that throws. *)
Fixpoint settled_events {A} (tasks : list (Eff A)) (order : list nat) : list Event :=
  match order with
  | [] => []
  | i :: order' =>
      match tasks !! i with
      | Some (t, inl _) => t
      | Some (t, inr _) => t ++ settled_events tasks order'
      | None => settled_events tasks order'
      end
  end.

(** [fetchGames]. Every [fetch] of the [map] is issued before the first
    response is awaited. *)
Definition fetchGames (sched : list nat) (username : string)
  : Eff (list GameWithOpening) :=
  res <~ request (archives_url username) ;
  archives <~ decode archiveSchema res ;
  let recent := JS.slice_from (-6) archives in
  let tasks := map archiveGames recent in
  ( map Fetched recent ++ settled_events tasks (settle_order sched (length tasks)),
    match promise_all (settle_order sched (length tasks)) (map Eff.outcome tasks) with
    | inl e => inl e
    | inr pages => inr (concat pages)
    end ).
End Identify.

(** [Stats]. The counters are numbers that only [++] changes: below
    [2^53] it adds one exactly, and at [2^53] the sum rounds back to
    [2^53]. *)
Record Stats := {
  total : N;
  wins : N;
  losses : N;
  draws : N;
}.

Definition initialStats : Stats :=
  {| total := 0; wins := 0; losses := 0; draws := 0 |}.

Definition incr (n : N) : N := if (n <? 2 ^ 53)%N then (n + 1)%N else n.

Inductive Color := White | Black.
Inductive Outcome := Win | Loss | Draw.

#[global] Instance Color_eq_dec : EqDecision Color.
Proof. solve_decision. Defined.

Record OpeningStats := {
  stats_white : JS.obj Stats;
  stats_black : JS.obj Stats;
}.

Definition side (c : Color) (g : Game) : Player :=
  match c with White => white g | Black => black g end.

Definition table (c : Color) (st : OpeningStats) : JS.obj Stats :=
  match c with White => stats_white st | Black => stats_black st end.

Definition with_table (c : Color) (t : JS.obj Stats) (st : OpeningStats) : OpeningStats :=
  match c with
  | White => {| stats_white := t; stats_black := stats_black st |}
  | Black => {| stats_white := stats_white st; stats_black := t |}
  end.

(** A property key made of [data.name]: [undefined] reads as its name. *)
Definition name_key (data : OpeningData) : string := default "undefined" (name data).

Definition count (r : Outcome) (s : Stats) : Stats :=
  let total := incr (total s) in
  match r with
  | Win => {| total := total; wins := incr (wins s); losses := losses s; draws := draws s |}
  | Loss => {| total := total; wins := wins s; losses := incr (losses s); draws := draws s |}
  | Draw => {| total := total; wins := wins s; losses := losses s; draws := incr (draws s) |}
  end.

Section Analyze.
Context {strcase : StringCase}.

Definition playerColor (handle : string) (g : Game) : Color :=
  if decide (toLowerCase (username (white g)) = toLowerCase handle)
  then White else Black.

Definition opponentColor (c : Color) : Color :=
  match c with Black => White | White => Black end.

Definition gameResult (handle : string) (g : Game) : Outcome :=
  let playerColor := playerColor handle g in
  let opponentColor := opponentColor playerColor in
  if decide (result (side playerColor g) = result (side opponentColor g)) then Draw
  else if decide (result (side playerColor g) = "win") then Win
  else Loss.

(** The body of the [forEach] of [analyzeGames]. *)
Definition record_game (handle : string) (st : OpeningStats) (g : GameWithOpening)
  : OpeningStats :=
  match opening g with
  | Found data =>
      let playerColor := playerColor handle (game g) in
      let result := gameResult handle (game g) in
      let t := table playerColor st in
      let t := match JS.get (name_key data) t with
               | None => JS.set (name_key data) initialStats t
               | Some _ => t
               end in
      let openingStat := default initialStats (JS.get (name_key data) t) in
      with_table playerColor (JS.set (name_key data) (count result openingStat) t) st
  | _ => st
  end.

Definition openingStats (handle : string) (games : list GameWithOpening)
  : OpeningStats :=
  foldl (record_game handle) {| stats_white := []; stats_black := [] |} games.
End Analyze.

(** An entry of [sortOpenings]. *)
Record Ranked := {
  openingName : string;
  stats : Stats;
  winRate : float64;
}.

Definition hundred : float64 := Eval vm_compute in F64.of_N 100.

(** [stats.total ? (stats.wins / stats.total) * 100 : 0]. *)
Definition win_rate (s : Stats) : float64 :=
  if (total s =? 0)%N then F64.zero
  else F64.mul (F64.div (F64.of_N (wins s)) (F64.of_N (total s))) hundred.

(** The comparator given to [sort]. *)
Definition compareFn (a b : Ranked) : float64 := F64.sub (winRate b) (winRate a).

(** [l.sort(cmp)]: the sort is stable, and [a] goes after [b] only when
    [cmp(a, b) > 0]. *)
Fixpoint sort_insert {A} (cmp : A -> A -> float64) (x : A) (sorted : list A) : list A :=
  match sorted with
  | [] => [x]
  | y :: sorted' =>
      if F64.positive (cmp x y) then y :: sort_insert cmp x sorted'
      else x :: sorted
  end.

Definition sort {A} (cmp : A -> A -> float64) (l : list A) : list A :=
  foldr (sort_insert cmp) [] l.

Definition rank (e : string * Stats) : Ranked :=
  {| openingName := e.1; stats := e.2; winRate := win_rate e.2 |}.

Definition sortOpenings (openingStats : JS.obj Stats) : list Ranked :=
  sort compareFn
    (filter (fun opening => (15 < total (stats opening))%N)
       (map rank (JS.entries openingStats))).

Section Report.
Context {strcase : StringCase} {numfmt : NumberFormat}.

Definition describe (opening : Ranked) : string :=
  toFixed2 (winRate opening) +:+ "%: " +:+ openingName opening +:+ " played "
    +:+ NilEmpty.string_of_uint (N.to_uint (total (stats opening))) +:+ " games.".

(** The ten entries a color's list is made of. *)
Definition top (c : Color) (handle : string) (games : list GameWithOpening)
  : list Ranked :=
  JS.slice_to 10 (sortOpenings (table c (openingStats handle games))).

(** [analyzeGames]: the [white] and the [black] list. *)
Definition analyzeGames (handle : string) (games : list GameWithOpening)
  : list string * list string :=
  (map describe (top White handle games), map describe (top Black handle games)).
End Report.

Definition USERNAME : string := "shomidamoney".

Section Script.
Context {engine : ChessEngine} {net : Network} {parser : JsonParser}
        {strcase : StringCase} {numfmt : NumberFormat}.
Variable epdLookup : gmap string OpeningData.

(** The script: the games are fetched, analyzed, and the two lists
    printed. *)
Definition script (sched : list nat) : Eff (list string * list string) :=
  games <~ fetchGames epdLookup sched USERNAME ;
  Eff.ret (analyzeGames USERNAME games).
End Script.

End Analyzer.


(** ** Predicates of the properties *)

(** An accumulator whose total is the sum of its counters and is at most
    [n]. *)
Definition counted (n : N) (s : Analyzer.Stats) : Prop :=
  (Analyzer.total s = Analyzer.wins s + Analyzer.losses s + Analyzer.draws s)%N /\
  (Analyzer.total s <= n)%N.

(** What one more game of the outcome [r] does to an accumulator. *)
Definition one_more (r : Analyzer.Outcome) (s s' : Analyzer.Stats) : Prop :=
  (Analyzer.total s' = Analyzer.total s + 1)%N /\
  match r with
  | Analyzer.Win =>
      Analyzer.wins s' = (Analyzer.wins s + 1)%N /\
      Analyzer.losses s' = Analyzer.losses s /\ Analyzer.draws s' = Analyzer.draws s
  | Analyzer.Loss =>
      Analyzer.wins s' = Analyzer.wins s /\
      Analyzer.losses s' = (Analyzer.losses s + 1)%N /\ Analyzer.draws s' = Analyzer.draws s
  | Analyzer.Draw =>
      Analyzer.wins s' = Analyzer.wins s /\
      Analyzer.losses s' = Analyzer.losses s /\ Analyzer.draws s' = (Analyzer.draws s + 1)%N
  end.


(** The win rates are non-negative numbers: [+0], a positive finite number
    whose exponent is at least that of the subnormal numbers, or
    [+Infinity]. *)
Definition is_rate (x : float64) : bool :=
  match x with
  | S754_zero false => true
  | S754_finite false _ e => (emin F64.prec F64.emax <=? e)%Z
  | S754_infinity false => true
  | _ => false
  end.

(** The value of such a number, counted in units of [2^emin], the least
    positive number; [None] stands for [+Infinity]. *)
Definition units (x : float64) : option Z :=
  match x with
  | S754_zero _ => Some 0%Z
  | S754_finite false m e => Some (Zpos m * 2 ^ (e - emin F64.prec F64.emax))%Z
  | _ => None
  end.

(** [x <= y] and [x < y] by value. *)
Definition units_le (a b : option Z) : Prop :=
  match a, b with
  | Some a, Some b => (a <= b)%Z
  | _, None => True
  | None, Some _ => False
  end.

Definition units_lt (a b : option Z) : Prop :=
  match a, b with
  | Some a, Some b => (a < b)%Z
  | Some _, None => True
  | None, _ => False
  end.

Definition rate_le (x y : float64) : Prop := units_le (units x) (units y).

(** The distinct elements of a list, in the order of their first
    occurrences. *)
Definition first_occurrences (l : list string) : list string :=
  foldl (fun seen k => if decide (k ∈ seen) then seen else seen ++ [k]) [] l.

(** A move with a promotion piece to write. *)
Definition promotes (move : Move) : bool :=
  match promotion move with
  | Some p => JS.truthy_str p
  | None => false
  end.

(** A move as the engine gives it: two squares of two characters, and a
    promotion of at most one. *)
Definition plain_move (move : Move) : Prop :=
  String.length (move_from move) = 2%nat /\
  String.length (move_to move) = 2%nat /\
  forall p, promotion move = Some p -> (String.length p <= 1)%nat.

(** The sum of one counter over the accumulators of both colors. *)
Definition tally (f : Analyzer.Stats -> N) (st : Analyzer.OpeningStats) : N :=
  (foldr (fun e acc => f e.2 + acc) 0 (Analyzer.stats_white st)
   + foldr (fun e acc => f e.2 + acc) 0 (Analyzer.stats_black st))%N.

(** The games with an opening, and those among them of one outcome. *)
Definition counted_games (games : list GameWithOpening) : list GameWithOpening :=
  filter (fun g => matched (opening g) = true) games.

(** The properties [gameSchema] declares, and those a game must have. *)
Definition game_keys : list string :=
  ["url"; "pgn"; "time_control"; "end_time"; "rated"; "tcn"; "uuid"; "initial_setup";
   "fen"; "time_class"; "rules"; "white"; "black"; "accuracies"].

Definition required_game_keys : list string :=
  ["url"; "pgn"; "time_control"; "end_time"; "rated"; "uuid"; "initial_setup";
   "fen"; "time_class"; "rules"; "white"; "black"].

#[global] Instance Outcome_eq_dec : EqDecision Analyzer.Outcome.
Proof. solve_decision. Defined.

(** What the callback of one archive of [fetchGames] does, said with the
    request, the parser, the schema and the engine. *)
Section Pages.
Context {engine : ChessEngine} {net : Network} {parser : JsonParser}.
Variable epdLookup : gmap string OpeningData.

(** [page] is what the archive gives: the standard chess games of its
    decoded body, in order, each with what [identifyOpening] returns for
    its move text. *)
Definition archive_page (archive : string) (page : list GameWithOpening) : Prop :=
  exists res j decoded,
    fetch archive = Some res /\ json_parse (body res) = Some j /\
    gamesDataSchema (Some j) = Some decoded /\
    game <$> page = filter (fun g => rules g = "chess") decoded /\
    Forall (fun g => Eff.outcome (Analyzer.identifyOpening epdLookup (game_pgn (game g)))
                     = inr (opening g)) page.

(** The archive gives the exception [e]: that of its request, of the
    JSON parser, of the schema, or of the engine on the move text of
    one of its standard chess games. *)
Definition archive_fails (archive : string) (e : error) : Prop :=
  match fetch archive with
  | None => e = FetchError archive
  | Some res =>
      match json_parse (body res) with
      | None => e = SyntaxError
      | Some j =>
          match gamesDataSchema (Some j) with
          | None => e = ZodError
          | Some decoded =>
              e = EngineError /\
              exists g, g ∈ decoded /\ rules g = "chess" /\ game_pgn g <> "" /\
                        loadPgn (Some (game_pgn g)) = None
          end
      end
  end.
End Pages.

(** The replays of the games of a page: one for each move text that is
    not empty. *)
Definition replays (page : list GameWithOpening) : list Event :=
  Replayed <$> filter (fun pgn => pgn <> "") (game_pgn <$> (game <$> page)).


(** ** Small instances of the imports, for the examples *)

Module Demo.

Definition shift_char (lo hi : nat) (by_ : nat -> nat) (c : ascii) : ascii :=
  let n := nat_of_ascii c in
  if (lo <=? n)%nat && (n <=? hi)%nat then ascii_of_nat (by_ n) else c.

Fixpoint map_chars (f : ascii -> ascii) (s : string) : string :=
  match s with
  | EmptyString => EmptyString
  | String c s' => String (f c) (map_chars f s')
  end.

(** The case conversions on the letters A-Z and a-z. *)
Definition ascii_case : StringCase :=
  {| toLowerCase := map_chars (shift_char 65 90 (fun n => n + 32)%nat);
     toUpperCase := map_chars (shift_char 97 122 (fun n => n - 32)%nat) |}.

Definition e4 : Move :=
  {| move_from := "e2"; move_to := "e4"; promotion := None;
     after := "rnbqkbnr/pppppppp/8/8/4P3/8/PPPPPPPP/RNBQKBNR b KQkq - 0 1" |}.

Definition e5 : Move :=
  {| move_from := "e7"; move_to := "e5"; promotion := None;
     after := "rnbqkbnr/pppp1ppp/8/4p3/4P3/8/PPPP1PPP/RNBQKBNR w KQkq - 0 2" |}.

Definition a6 : Move :=
  {| move_from := "a7"; move_to := "a6"; promotion := None;
     after := "rnbqkbnr/1ppppppp/p7/8/4P3/8/PPPPPPPP/RNBQKBNR w KQkq - 0 2" |}.

(** An engine that replays three move texts and rejects the rest. *)
Definition engine : ChessEngine := fun pgn =>
  if decide (pgn = Some "1. e4") then Some {| history := [e4]; fen := after e4 |}
  else if decide (pgn = Some "1. e4 e5") then Some {| history := [e4; e5]; fen := after e5 |}
  else if decide (pgn = Some "1. e4 a6") then Some {| history := [e4; a6]; fen := after a6 |}
  else None.

Definition kings_pawn : OpeningData :=
  {| eco := "B00"; name := Some "King's Pawn"; pgn := Some "1. e4";
     epd := "rnbqkbnr/pppppppp/8/8/4P3/8/PPPPPPPP/RNBQKBNR b KQkq -"; uci := "e2e4" |}.

Definition open_game : OpeningData :=
  {| eco := "C20"; name := Some "King's Pawn Game"; pgn := Some "1. e4 e5";
     epd := "rnbqkbnr/pppp1ppp/8/4p3/4P3/8/PPPP1PPP/RNBQKBNR w KQkq -"; uci := "e2e4e7e5" |}.

(** A second record of the position of [kings_pawn]. *)
Definition kings_pawn' : OpeningData :=
  {| eco := "C20"; name := Some "King's Pawn Opening"; pgn := Some "1. e4";
     epd := epd kings_pawn; uci := "e2e4" |}.

Definition index : gmap string OpeningData :=
  <[epd kings_pawn := kings_pawn]> (<[epd open_game := open_game]> ∅).

Definition tab : string := String "009" EmptyString.
Definition nl : string := String "010" EmptyString.

(** A source whose category [c] is missing and whose other categories
    hold a header line and, for [b], one row and a blank line. *)
Definition network (missing : string) : Network := fun url =>
  if decide (url = Builder.category_url missing)
  then Some {| ok := false; status := 404; statusText := "Not Found"; body := "404: Not Found" |}
  else if decide (url = Builder.category_url "b")
  then Some {| ok := true; status := 200; statusText := "OK";
               body := "eco" +:+ tab +:+ "name" +:+ tab +:+ "pgn" +:+ nl
                       +:+ "B00" +:+ tab +:+ "King's Pawn" +:+ tab +:+ "1. e4" +:+ nl +:+ nl |}
  else Some {| ok := true; status := 200; statusText := "OK";
               body := "eco" +:+ tab +:+ "name" +:+ tab +:+ "pgn" +:+ nl |}.

Definition player (username result : string) : json :=
  JObject [("rating", JNumber (F64.of_N 1500)); ("result", JString result);
           ("@id", JString ("https://api.chess.com/pub/player/" +:+ username));
           ("username", JString username); ("uuid", JString "0")].

Definition game_json (pgn rules : string) (white black : json) : json :=
  JObject [("url", JString "https://www.chess.com/game/live/1"); ("pgn", JString pgn);
           ("time_control", JString "600"); ("end_time", JNumber (F64.of_N 1700000000));
           ("rated", JBool true); ("uuid", JString "1");
           ("initial_setup", JString "start"); ("fen", JString "end");
           ("time_class", JString "rapid"); ("rules", JString rules);
           ("white", white); ("black", black)].

Definition archive_2024_01 : string := "https://api.chess.com/pub/player/alice/games/2024/01".

(** A parser that knows two texts. *)
Definition parser : JsonParser := fun text =>
  if decide (text = "archives") then Some (JObject [("archives", JArray [JString archive_2024_01])])
  else if decide (text = "games") then
    Some (JObject [("games", JArray [game_json "1. e4 e5" "chess"
                                       (player "Alice" "win") (player "bob" "resigned");
                                     game_json "1. e4" "chess960"
                                       (player "bob" "win") (player "Alice" "checkmated")])])
  else None.

(** A player with one archive, every response under the given status. *)
Definition archive_net (ok : bool) (status : nat) (statusText : string) : Network := fun url =>
  if decide (url = Analyzer.archives_url "alice")
  then Some {| ok := ok; status := status; statusText := statusText; body := "archives" |}
  else if decide (url = archive_2024_01)
  then Some {| ok := ok; status := status; statusText := statusText; body := "games" |}
  else None.

(** The same player, the body of the archive being an error page. *)
Definition broken_net : Network := fun url =>
  if decide (url = Analyzer.archives_url "alice")
  then Some {| ok := true; status := 200; statusText := "OK"; body := "archives" |}
  else if decide (url = archive_2024_01)
  then Some {| ok := false; status := 404; statusText := "Not Found"; body := "<html>" |}
  else None.

Definition side (username result : string) : Player :=
  {| rating := F64.of_N 1500; result := result; player_id := username;
     username := username; player_uuid := "0" |}.

(** A game of [Alice] with the white pieces, by the two result strings. *)
Definition played (white_result black_result : string) (o : Opening) : GameWithOpening :=
  {| game := {| url := "https://www.chess.com/game/live/1"; game_pgn := "1. e4 e5";
                time_control := "600"; end_time := F64.of_N 1700000000; rated := true;
                tcn := None; uuid := "1"; initial_setup := "start"; game_fen := "end";
                time_class := "rapid"; rules := "chess";
                white := side "Alice" white_result; black := side "bob" black_result;
                accuracies := None |};
     opening := o |}.

Definition italian : OpeningData :=
  {| eco := "C50"; name := Some "Italian Game"; pgn := Some "1. e4 e5 2. Nf3 Nc6 3. Bc4";
     epd := "r1bqkbnr/pppp1ppp/2n5/4p3/2B1P3/5N2/PPPP1PPP/RNBQK2R b KQkq -";
     uci := "e2e4e7e5g1f3b8c6f1c4" |}.

(** A win, a loss and a draw of [alice] in the Italian Game, and a game
    without an opening. *)
Definition three_games : list GameWithOpening :=
  [ played "win" "checkmated" (Found italian);
    played "resigned" "win" (Found italian);
    played "agreed" "agreed" (Found italian);
    played "win" "timeout" Undefined ].

(** An opening known by its name alone. *)
Definition line (name : string) : OpeningData :=
  {| eco := "C50"; name := Some name; pgn := None; epd := ""; uci := "" |}.

(** Sixteen games of [alice] in each of eleven openings, with one win in
    the first, two in the second, and so on; the other games are lost. *)
Definition season : list GameWithOpening :=
  flat_map (fun '(name, wins) =>
              replicate wins (played "win" "resigned" (Found (line name)))
              ++ replicate (16 - wins) (played "resigned" "win" (Found (line name))))
    [("A", 1); ("B", 2); ("C", 3); ("D", 4); ("E", 5); ("F", 6);
     ("G", 7); ("H", 8); ("I", 9); ("J", 10); ("K", 11)]%nat.

(** A player with two archives, and one with seven, the first of which
    no request can reach. *)
Definition archive_2024_02 : string := "https://api.chess.com/pub/player/alice/games/2024/02".
Definition archive_2023_07 : string := "https://api.chess.com/pub/player/alice/games/2023/07".

Definition parser2 : JsonParser := fun text =>
  if decide (text = "two")
  then Some (JObject [("archives", JArray [JString archive_2024_01; JString archive_2024_02])])
  else if decide (text = "seven")
  then Some (JObject [("archives",
                       JArray (JString <$> [archive_2023_07;
                                            archive_2024_01; archive_2024_02;
                                            archive_2024_01; archive_2024_02;
                                            archive_2024_01; archive_2024_02]))])
  else if decide (text = "january")
  then Some (JObject [("games", JArray [game_json "1. e4 e5" "chess"
                                          (player "Alice" "win") (player "bob" "resigned");
                                        game_json "1. e4" "chess960"
                                          (player "bob" "win") (player "Alice" "checkmated")])])
  else if decide (text = "february")
  then Some (JObject [("games", JArray [game_json "1. e4 a6" "chess"
                                          (player "bob" "timeout") (player "Alice" "win")])])
  else None.

(** The source of this player: the body of the archive list and those
    of the two archives. *)
Definition season_net (list january february : string) : Network := fun url =>
  if decide (url = Analyzer.archives_url "alice")
  then Some {| ok := true; status := 200; statusText := "OK"; body := list |}
  else if decide (url = archive_2024_01)
  then Some {| ok := true; status := 200; statusText := "OK"; body := january |}
  else if decide (url = archive_2024_02)
  then Some {| ok := true; status := 200; statusText := "OK"; body := february |}
  else None.

End Demo.

(** * Properties *)

(** ** Splitting and joining *)

Section SplitJoin.
Variable sep : ascii.

Lemma split_not_nil s : JS.split sep s <> [].
Proof.
  destruct s as [|c s]; simpl; [done|].
  destruct (decide (c = sep)); [done|].
  destruct (JS.split sep s); done.
Qed.

Lemma split_fields_free s :
  Forall (fun w => JS.occurs sep w = false) (JS.split sep s).
Proof.
  induction s as [|c s IH]; simpl.
  - by repeat constructor.
  - destruct (decide (c = sep)) as [->|Hc].
    + by constructor.
    + destruct (JS.split sep s) as [|w ws]; simpl.
      * repeat constructor. simpl. by rewrite decide_False.
      * inversion_clear IH. constructor; [|done].
        simpl. by rewrite decide_False.
Qed.

Lemma split_app_free w s :
  JS.occurs sep w = false ->
  JS.split sep (w +:+ String sep s) = w :: JS.split sep s.
Proof.
  induction w as [|c w IH]; simpl; intros Hw.
  - by rewrite decide_True.
  - destruct (decide (c = sep)); [done|].
    by rewrite IH.
Qed.

Lemma split_free w : JS.occurs sep w = false -> JS.split sep w = [w].
Proof.
  induction w as [|c w IH]; simpl; intros Hw; [done|].
  destruct (decide (c = sep)); [done|].
  by rewrite IH.
Qed.

(** Splitting what was joined gives the fields back. *)
Lemma split_join l :
  l <> [] ->
  Forall (fun w => JS.occurs sep w = false) l ->
  JS.split sep (JS.join (String sep EmptyString) l) = l.
Proof.
  induction l as [|w l IH]; [done|]. intros _ Hl.
  inversion_clear Hl as [|? ? Hw Hl'].
  destruct l as [|w' l].
  - simpl. by apply split_free.
  - change (JS.join (String sep EmptyString) (w :: w' :: l))
      with (w +:+ String sep (JS.join (String sep EmptyString) (w' :: l))).
    rewrite split_app_free by done. f_equal. by apply IH.
Qed.
End SplitJoin.

(** The fields of a position code are the first four fields of the
    position string. *)
Lemma epd_fields position :
  JS.split " " (epd_of position) = take 4 (JS.split " " position).
Proof.
  unfold epd_of, JS.slice_to.
  pose proof (split_not_nil " " position) as Hne.
  pose proof (split_fields_free " " position) as Hfree.
  apply split_join.
  - destruct (JS.split " " position); done.
  - by apply Forall_take.
Qed.

(** ** Slices *)

Section Slices.
Context {A : Type}.
Implicit Types l : list A.

(** [l.slice(k)] for [k >= 0] drops the first [k] elements. *)
Lemma slice_from_nonneg (k : Z) l :
  (0 <= k)%Z -> JS.slice_from k l = drop (Z.to_nat k) l.
Proof.
  intros Hk. unfold JS.slice_from.
  destruct (Z.ltb_spec k 0); [lia|].
  destruct (Z.le_gt_cases k (Z.of_nat (length l))).
  - by rewrite Z.min_l.
  - rewrite Z.min_r by lia. rewrite Nat2Z.id.
    rewrite !drop_ge; [done|lia|lia].
Qed.

(** [l.slice(-k)] for [k > 0] keeps the last [min (length l) k]
    elements. *)
Lemma slice_from_neg (k : nat) l :
  (0 < k)%nat ->
  JS.slice_from (- Z.of_nat k) l = drop (length l - (length l `min` k)) l.
Proof.
  intros Hk. unfold JS.slice_from.
  destruct (Z.ltb_spec (- Z.of_nat k) 0); [|lia].
  f_equal. lia.
Qed.

Lemma slice_from_neg_length (k : nat) l :
  (0 < k)%nat -> length (JS.slice_from (- Z.of_nat k) l) = (length l `min` k)%nat.
Proof. intros. rewrite slice_from_neg, length_drop by done. lia. Qed.
End Slices.

(** ** Objects *)

Section Objects.
Context {V : Type}.
Implicit Types (o : JS.obj V) (k : string) (v : V).

Lemma get_set o k k' v :
  JS.get k' (JS.set k v o) = if decide (k = k') then Some v else JS.get k' o.
Proof.
  induction o as [|[k0 v0] o IH]; simpl.
  - done.
  - destruct (decide (k0 = k)) as [->|Hk0]; simpl.
    + by destruct (decide (k = k')).
    + rewrite IH. destruct (decide (k0 = k')) as [->|]; [|done].
      by rewrite decide_False.
Qed.

Lemma get_Some_elem o k v : JS.get k o = Some v -> (k, v) ∈ o.
Proof.
  induction o as [|[k0 v0] o IH]; simpl; [done|].
  destruct (decide (k0 = k)) as [->|].
  - intros [= ->]. left.
  - intros. right. auto.
Qed.

Lemma get_None_fst o k : JS.get k o = None <-> k ∉ o.*1.
Proof.
  induction o as [|[k0 v0] o IH]; simpl.
  - split; [intros _; apply not_elem_of_nil | done].
  - rewrite not_elem_of_cons. destruct (decide (k0 = k)) as [->|]; [|rewrite IH; intuition congruence].
    split; [done|]. by intros [? _].
Qed.

Lemma elem_get_Some o k v :
  NoDup o.*1 -> (k, v) ∈ o -> JS.get k o = Some v.
Proof.
  induction o as [|[k0 v0] o IH]; simpl.
  - by intros _ ?%elem_of_nil.
  - intros [Hk0 Hnd]%NoDup_cons [[= -> ->]|Hin]%elem_of_cons.
    + by rewrite decide_True.
    + rewrite decide_False; [by apply IH|].
      intros ->. apply Hk0. apply list_elem_of_fmap. by exists (k, v).
Qed.

Lemma set_fst_elem o k v : k ∈ o.*1 -> (JS.set k v o).*1 = o.*1.
Proof.
  induction o as [|[k0 v0] o IH]; simpl.
  - by intros ?%elem_of_nil.
  - intros Hin. destruct (decide (k0 = k)) as [->|Hk0]; simpl; [done|].
    f_equal. apply IH. apply elem_of_cons in Hin as [->|]; done.
Qed.

Lemma set_fst_fresh o k v : k ∉ o.*1 -> (JS.set k v o).*1 = o.*1 ++ [k].
Proof.
  induction o as [|[k0 v0] o IH]; simpl; [done|].
  intros [Hk Hin]%not_elem_of_cons.
  rewrite decide_False by done. simpl. f_equal. by apply IH.
Qed.

Lemma set_NoDup o k v : NoDup o.*1 -> NoDup (JS.set k v o).*1.
Proof.
  intros Hnd. destruct (decide (k ∈ o.*1)).
  - by rewrite set_fst_elem.
  - rewrite set_fst_fresh by done.
    apply NoDup_app. split_and!; [done| |apply NoDup_singleton].
    by intros x Hx ->%list_elem_of_singleton.
Qed.

Lemma set_elem_fst o k k' v : k' ∈ (JS.set k v o).*1 <-> k' = k \/ k' ∈ o.*1.
Proof.
  destruct (decide (k ∈ o.*1)).
  - rewrite set_fst_elem by done. intuition congruence.
  - rewrite set_fst_fresh by done. rewrite elem_of_app, list_elem_of_singleton.
    intuition congruence.
Qed.

Lemma insert_index_perm n (e : string * V) l :
  JS.insert_index n e l ≡ₚ (n, e) :: l.
Proof.
  induction l as [|[m e'] l IH]; simpl; [done|].
  destruct (n <? m)%N; [done|].
  rewrite IH. apply perm_swap.
Qed.

(** [Object.entries] lists the own properties, each once. *)
Lemma entries_perm o : JS.entries o ≡ₚ o.
Proof.
  unfold JS.entries. induction o as [|[k v] o IH]; simpl; [done|].
  destruct (JS.array_index k) as [n|]; simpl.
  - rewrite insert_index_perm. simpl. by rewrite IH.
  - rewrite <- Permutation_middle. by rewrite IH.
Qed.

Lemma keys_perm o : JS.keys o ≡ₚ o.*1.
Proof. unfold JS.keys. by rewrite entries_perm. Qed.
End Objects.


(** ** The reference-data builder *)

Section BuilderRows.
Context {engine : ChessEngine}.

(** C5. A row whose first three tab-separated fields are [eco], [name]
    and [moveText], whose move text the engine replays to a position
    string of at least four fields (a standard one has six), gives the
    record with these three fields and with a position code of exactly
    four space-separated fields, the first four of the position string. *)
Theorem processRow_record row eco0 name0 moveText rest chess :
  JS.split "009" row = eco0 :: name0 :: moveText :: rest ->
  loadPgn (Some moveText) = Some chess ->
  (4 <= length (JS.split " " (fen chess)))%nat ->
  exists r,
    Builder.processRow row = inr r /\
    eco r = eco0 /\ name r = Some name0 /\ pgn r = Some moveText /\
    JS.split " " (epd r) = take 4 (JS.split " " (fen chess)) /\
    length (JS.split " " (epd r)) = 4%nat.
Proof.
  intros Hrow Hload Hfen. unfold Builder.processRow. rewrite Hrow. simpl.
  rewrite Hload. eexists. split; [reflexivity|]. simpl.
  rewrite epd_fields. split_and!; try done.
  rewrite length_take. lia.
Qed.

(** [processRows] hands the records of the rows to the handler in row
    order, and stops at the first row the engine rejects. *)
Lemma processRows_records {S} rows rs (handler : OpeningData -> S -> S) st :
  mapM (fun row => fulfilled (Builder.processRow row)) rows = Some rs ->
  Builder.processRows rows handler st = inr (foldl (fun st r => handler r st) st rs).
Proof.
  revert rs st. induction rows as [|row rows IH]; intros rs st; simpl.
  - by intros [= <-].
  - destruct (Builder.processRow row) as [e|r]; simpl; [done|].
    destruct (mapM _ rows) as [rs'|] eqn:Hrs; simpl; [|done].
    intros [= <-]. simpl. by apply IH.
Qed.
End BuilderRows.

Lemma processRow_record_witness :
  exists r,
    Builder.processRow (engine := Demo.engine)
      ("B00" +:+ Demo.tab +:+ "King's Pawn" +:+ Demo.tab +:+ "1. e4") = inr r /\
    eco r = "B00" /\ name r = Some "King's Pawn" /\ pgn r = Some "1. e4" /\
    JS.split " " (epd r) = take 4 (JS.split " " (fen {| history := [Demo.e4]; fen := after Demo.e4 |})) /\
    length (JS.split " " (epd r)) = 4%nat.
Proof.
  apply (processRow_record (engine := Demo.engine) _ "B00" "King's Pawn" "1. e4" []);
    [reflexivity | reflexivity | vm_compute; lia].
Defined.

Section BuilderTables.
Context {strcase : StringCase}.

Lemma build_snoc rs r : Builder.build (rs ++ [r]) = Builder.handler r (Builder.build rs).
Proof. unfold Builder.build. by rewrite foldl_app. Qed.

(** C6. The position-code index maps a code to the last record, in input
    order, that bears it; a code that no record bears is not a key. *)
Theorem epdLookup_last_wins (rs : list OpeningData) (code : string) :
  Builder.epdLookup (Builder.build rs) !! code
  = last (filter (fun r => epd r = code) rs).
Proof.
  induction rs as [|r rs IH] using rev_ind.
  - done.
  - rewrite build_snoc, filter_app.
    cbn [Builder.handler Builder.epdLookup].
    destruct (decide (epd r = code)) as [<-|Hne].
    + rewrite lookup_insert_eq.
      rewrite filter_cons_True, filter_nil by done. by rewrite last_snoc.
    + rewrite lookup_insert_ne by done.
      rewrite filter_cons_False, filter_nil by done. by rewrite app_nil_r.
Qed.

(** The keys of a table of lists filled by [push_at]. *)
Lemma push_at_fst {V} k (v : V) o k' :
  k' ∈ (Builder.push_at k v o).*1 <-> k' = k \/ k' ∈ o.*1.
Proof.
  unfold Builder.push_at. destruct (JS.get k o); apply set_elem_fst.
Qed.

Lemma push_at_NoDup {V} k (v : V) o : NoDup o.*1 -> NoDup (Builder.push_at k v o).*1.
Proof.
  unfold Builder.push_at. destruct (JS.get k o); apply set_NoDup.
Qed.

Lemma ecoLookup_fst rs k :
  k ∈ (Builder.ecoLookup (Builder.build rs)).*1 <-> exists r, r ∈ rs /\ eco r = k.
Proof.
  induction rs as [|r rs IH] using rev_ind.
  - simpl. split; [by intros ?%elem_of_nil | by intros (? & ?%elem_of_nil & _)].
  - rewrite build_snoc. simpl. rewrite push_at_fst, IH. split.
    + intros [->|(r' & ? & ?)].
      * exists r. split; [|done]. apply elem_of_app. right. left.
      * exists r'. split; [|done]. apply elem_of_app. by left.
    + intros (r' & [?| ->%list_elem_of_singleton]%elem_of_app & <-); eauto.
Qed.

Lemma ecoLookup_NoDup rs : NoDup (Builder.ecoLookup (Builder.build rs)).*1.
Proof.
  induction rs as [|r rs IH] using rev_ind.
  - apply NoDup_nil_2.
  - rewrite build_snoc. simpl. by apply push_at_NoDup.
Qed.

(** C7, as the code has it. The fifth file, [eco-list.json], holds the
    keys of the ECO table: every ECO code of the records, each once. *)
Theorem fifth_file_eco_codes (rs : list OpeningData) :
  exists codes,
    Builder.files (Builder.build rs) !! 4%nat
      = Some ("eco-list.json", Builder.KeyArray codes) /\
    codes = JS.keys (Builder.ecoLookup (Builder.build rs)) /\
    NoDup codes /\
    forall k, k ∈ codes <-> exists r, r ∈ rs /\ eco r = k.
Proof.
  eexists. split; [reflexivity|]. split; [reflexivity|]. split.
  - rewrite keys_perm. apply ecoLookup_NoDup.
  - intros k. rewrite keys_perm. apply ecoLookup_fst.
Qed.
End BuilderTables.

(** C7, as it is stated, fails on one record of ECO code [B00]: the fifth
    file holds the code [B00], and the only category key is the letter
    [B]. *)
Lemma fifth_file_not_category_keys :
  let st := Builder.build (strcase := Demo.ascii_case) [Demo.kings_pawn] in
  JS.keys (Builder.categoryLookup st) = ["B"] /\
  Builder.files st !! 4%nat = Some ("eco-list.json", Builder.KeyArray ["B00"]) /\
  Builder.files st !! 4%nat
    <> Some ("eco-list.json", Builder.KeyArray (JS.keys (Builder.categoryLookup st))).
Proof. vm_compute. split_and!; [reflexivity | reflexivity | discriminate]. Qed.

(** Two records of one position: the later one is in the index, the
    record of another position stays. *)
Example epdLookup_overwrites :
  let st := Builder.build (strcase := Demo.ascii_case)
              [Demo.kings_pawn; Demo.open_game; Demo.kings_pawn'] in
  Builder.epdLookup st !! epd Demo.kings_pawn = Some Demo.kings_pawn' /\
  Builder.epdLookup st !! epd Demo.open_game = Some Demo.open_game.
Proof. split; reflexivity. Qed.


(** ** [Promise.all] *)

Section PromiseAll.
Context {A : Type}.
Implicit Types (ps : list (completion A)) (order sched : list nat).

Lemma first_rejection_elem ps order e :
  first_rejection ps order = Some e -> inl e ∈ ps.
Proof.
  induction order as [|i order IH]; simpl; [done|].
  destruct (ps !! i) as [[e'|a]|] eqn:Hi; auto.
  intros [= ->]. by eapply list_elem_of_lookup_2.
Qed.

Lemma first_rejection_None ps order i e :
  first_rejection ps order = None -> i ∈ order -> ps !! i <> Some (inl e).
Proof.
  induction order as [|j order IH]; simpl.
  - by intros _ ?%elem_of_nil.
  - intros Hnone [->|Hin]%elem_of_cons.
    + destruct (ps !! j) as [[e'|a]|]; done.
    + destruct (ps !! j) as [[e'|a]|]; auto; done.
Qed.

(** One rejection rejects the whole, with the reason of a promise of the
    list. *)
Lemma promise_all_rejects sched ps e :
  inl e ∈ ps -> exists e', promise_all sched ps = inl e' /\ inl e' ∈ ps.
Proof.
  intros [i Hi]%list_elem_of_lookup_1. unfold promise_all.
  destruct (first_rejection ps _) as [e'|] eqn:Hfirst.
  - exists e'. split; [done|]. by eapply first_rejection_elem.
  - exfalso. apply (first_rejection_None ps _ i e Hfirst); [|exact Hi].
    apply elem_of_app. right. apply elem_of_seq.
    apply lookup_lt_Some in Hi. lia.
Qed.

Lemma first_rejection_fulfilled (vs : list A) order :
  first_rejection (inr <$> vs) order = None.
Proof.
  induction order as [|i order IH]; simpl; [done|].
  rewrite list_lookup_fmap. by destruct (vs !! i).
Qed.

(** Without a rejection the values come back by position. *)
Lemma promise_all_fulfills sched (vs : list A) :
  promise_all sched (inr <$> vs) = inr vs.
Proof.
  unfold promise_all. rewrite first_rejection_fulfilled. f_equal.
  clear sched. induction vs as [|v vs IH]; [done|].
  cbn. cbn in IH. by rewrite IH.
Qed.
End PromiseAll.

(** ** Fetching the opening tables *)

Section BuilderFetch.
Context {net : Network} {engine : ChessEngine} {strcase : StringCase}.

(** C8. A category answered with a non-success status rejects with the
    error that names it; then, whatever the order in which the five
    requests settle, [fetchOpenings] throws the rejection of one of the
    categories and returns no row, and [main] writes nothing. When the
    five categories are answered with success, the rows are those of
    the categories in category order, each body split into lines, its
    first line dropped, and the empty lines removed. *)
Theorem fetchOpenings_all_or_nothing (sched : list nat) :
  (forall category res,
      category ∈ Builder.categories ->
      fetch (Builder.category_url category) = Some res ->
      ok res = false ->
      Builder.fetchCategory category
        = inl (Error ("Failed to fetch category " +:+ category +:+ ": " +:+ statusText res)) /\
      exists e,
        Builder.fetchOpenings sched = inl e /\
        (exists c, c ∈ Builder.categories /\ Builder.fetchCategory c = inl e) /\
        Builder.main sched = inl e) /\
  (forall texts,
      Forall2 (fun category text =>
                 exists res, fetch (Builder.category_url category) = Some res /\
                             ok res = true /\ body res = text)
              Builder.categories texts ->
      Builder.fetchOpenings sched
        = inr (filter (fun row => row <> "")
                 (concat ((fun text => drop 1 (JS.split "010" text)) <$> texts)))).
Proof.
  split.
  - intros category res Hcat Hfetch Hok.
    assert (Hrej : Builder.fetchCategory category
        = inl (Error ("Failed to fetch category " +:+ category +:+ ": " +:+ statusText res))).
    { unfold Builder.fetchCategory. by rewrite Hfetch, Hok. }
    split; [done|].
    destruct (promise_all_rejects sched (map Builder.fetchCategory Builder.categories) _
                ltac:(rewrite <- Hrej; by apply list_elem_of_fmap_2)) as (e & Hall & He).
    exists e. unfold Builder.main, Builder.fetchOpenings. rewrite Hall.
    split_and!; [done| |done].
    apply list_elem_of_fmap in He as (c & -> & Hc). by exists c.
  - intros texts Htexts. unfold Builder.fetchOpenings.
    assert (map Builder.fetchCategory Builder.categories
            = inr <$> ((fun text => drop 1 (JS.split "010" text)) <$> texts)) as ->.
    { induction Htexts as [|c text cs texts' (res & Hfetch & Hok & <-) _ IH]; [done|].
      simpl. rewrite IH. f_equal.
      unfold Builder.fetchCategory. rewrite Hfetch, Hok.
      by rewrite slice_from_nonneg. }
    rewrite promise_all_fulfills. f_equal.
    apply list_filter_iff. intros row. by destruct row.
Qed.
End BuilderFetch.

Lemma fetchOpenings_all_or_nothing_witness :
  Builder.fetchOpenings (net := Demo.network "c") [4; 2; 0]%nat
    = inl (Error "Failed to fetch category c: Not Found") /\
  Builder.main (net := Demo.network "c") (engine := Demo.engine) (strcase := Demo.ascii_case) [4; 2; 0]%nat
    = inl (Error "Failed to fetch category c: Not Found") /\
  Builder.fetchOpenings (net := Demo.network "none") [4; 2; 0]%nat
    = inr ["B00" +:+ Demo.tab +:+ "King's Pawn" +:+ Demo.tab +:+ "1. e4"].
Proof.
  pose proof (fetchOpenings_all_or_nothing (net := Demo.network "c") (engine := Demo.engine)
                (strcase := Demo.ascii_case) [4; 2; 0]%nat) as [Hfail _].
  pose proof (fetchOpenings_all_or_nothing (net := Demo.network "none") (engine := Demo.engine)
                (strcase := Demo.ascii_case) [4; 2; 0]%nat) as [_ Hok].
  destruct (Hfail "c" _ ltac:(vm_compute; set_solver) eq_refl eq_refl)
    as (_ & e & He & _ & Hmain).
  replace e with (Error "Failed to fetch category c: Not Found") in *
    by (vm_compute in He; congruence).
  split_and!; [exact He | exact Hmain |].
  rewrite (Hok ((fun c => from_option body EmptyString
                             (Demo.network "none" (Builder.category_url c)))
                  <$> Builder.categories)).
  - vm_compute. reflexivity.
  - repeat (constructor; [eexists; split_and!; reflexivity|]). constructor.
Defined.


(** ** Identifying the opening of a game *)

Section Identify.
Context {engine : ChessEngine}.
Variable epdLookup : gmap string OpeningData.

Local Abbreviation miss := (fun move : Move => epdLookup !! epd_of (after move) = None).

Lemma scan_matched r stack :
  matched r = true -> Analyzer.scan epdLookup r stack = r.
Proof. intros Hr. destruct stack; simpl; by rewrite Hr. Qed.

(** The scan stops at the first position of the stack that is a key. *)
Lemma scan_first_hit r misses move stack data :
  matched r = false ->
  Forall miss misses ->
  epdLookup !! epd_of (after move) = Some data ->
  Analyzer.scan epdLookup r (misses ++ move :: stack) = Found data.
Proof.
  intros Hr Hmiss Hhit. revert r Hr.
  induction Hmiss as [|m misses Hm _ IH]; intros r Hr; simpl; rewrite Hr.
  - unfold Analyzer.probe at 1. rewrite Hhit. by apply scan_matched.
  - apply IH. unfold Analyzer.probe. by rewrite Hm.
Qed.

(** Without a key on the stack the scan ends on the last probe. *)
Lemma scan_no_hit r stack :
  matched r = false ->
  Forall miss stack ->
  Analyzer.scan epdLookup r stack = match stack with [] => r | _ => Undefined end.
Proof.
  intros Hr Hmiss. revert r Hr.
  induction Hmiss as [|m stack Hm Hstack IH]; intros r Hr; simpl; rewrite Hr; [done|].
  rewrite IH by (unfold Analyzer.probe; by rewrite Hm).
  unfold Analyzer.probe. rewrite Hm. by destruct stack.
Qed.

(** C1. An empty move text gives [null] and the engine is not called.
    A move text the engine replays gives the record stored for the
    deepest position whose code is a key of the index; when no position
    has such a code, the result is no match: [null] for no position at
    all, the [undefined] of the last probe otherwise. *)
Theorem identifyOpening_deepest (moveText : string) :
  (moveText = "" -> Analyzer.identifyOpening epdLookup moveText = ([], inr Null)) /\
  (moveText <> "" ->
   forall chess, loadPgn (Some moveText) = Some chess ->
     (forall shallower move deeper data,
         history chess = shallower ++ move :: deeper ->
         epdLookup !! epd_of (after move) = Some data ->
         Forall miss deeper ->
         Analyzer.identifyOpening epdLookup moveText
           = ([Replayed moveText], inr (Found data))) /\
     (Forall miss (history chess) ->
      exists o,
        Analyzer.identifyOpening epdLookup moveText = ([Replayed moveText], inr o) /\
        matched o = false /\
        o = match history chess with [] => Null | _ => Undefined end)).
Proof.
  split.
  - by intros ->.
  - intros Hne chess Hload. unfold Analyzer.identifyOpening.
    destruct moveText as [|c s]; [done|]. simpl. rewrite Hload. simpl. split.
    + intros shallower move deeper data Hhist Hhit Hdeeper.
      rewrite Hhist, rev_app_distr. simpl. rewrite <- app_assoc. simpl.
      do 2 f_equal. apply scan_first_hit; [done| |done].
      by apply Forall_rev.
    + intros Hmiss. eexists. split; [reflexivity|].
      rewrite scan_no_hit by (done || by apply Forall_rev).
      destruct (history chess) as [|m l] using rev_ind; [done|].
      rewrite rev_app_distr. simpl. split; [done|]. by destruct l.
Qed.
End Identify.

Lemma identifyOpening_deepest_witness :
  Analyzer.identifyOpening (engine := Demo.engine) Demo.index "1. e4 a6"
    = ([Replayed "1. e4 a6"], inr (Found Demo.kings_pawn)) /\
  Analyzer.identifyOpening (engine := Demo.engine) Demo.index "" = ([], inr Null).
Proof.
  destruct (identifyOpening_deepest (engine := Demo.engine) Demo.index "1. e4 a6")
    as [_ Hreplay].
  destruct (Hreplay ltac:(discriminate) _ eq_refl) as [Hhit _].
  split.
  - apply (Hhit [] Demo.e4 [Demo.a6] Demo.kings_pawn); [reflexivity|reflexivity|].
    repeat constructor.
  - apply (identifyOpening_deepest (engine := Demo.engine) Demo.index ""). reflexivity.
Defined.

(** A deeper position that is a key is preferred to a shallower one. *)
Example identifyOpening_prefers_deeper :
  Analyzer.identifyOpening (engine := Demo.engine) Demo.index "1. e4 e5"
    = ([Replayed "1. e4 e5"], inr (Found Demo.open_game)).
Proof. reflexivity. Qed.

(** ** The order of arrival *)

Section ArrivalOrder.
Context {A : Type}.
Implicit Types (ps : list (completion A)).

Lemma promise_all_inr sched ps vs :
  promise_all sched ps = inr vs -> ps = inr <$> vs.
Proof.
  unfold promise_all.
  destruct (first_rejection ps _) as [e|] eqn:Hfirst; [done|]. intros [= <-].
  assert (Hall : Forall (fun p => exists a, p = inr a) ps).
  { apply Forall_lookup. intros i [e|a] Hi; [|by eauto]. exfalso.
    apply (first_rejection_None ps _ i e Hfirst); [|done].
    apply elem_of_app. right. apply elem_of_seq. apply lookup_lt_Some in Hi. lia. }
  clear Hfirst. induction Hall as [|p ps (a & ->) _ IH]; [done|].
  cbn. cbn in IH. by rewrite <- IH.
Qed.

(** A [Promise.all] that is fulfilled is fulfilled with the same values
    in every order of arrival. *)
Lemma promise_all_order_free sched sched' ps vs :
  promise_all sched ps = inr vs -> promise_all sched' ps = inr vs.
Proof. intros ->%promise_all_inr. apply promise_all_fulfills. Qed.
End ArrivalOrder.

(** ** The order in which the archives of [fetchGames] settle *)

Section FirstRejection.
Context {A : Type}.
Implicit Types (ps : list (completion A)) (order before after seen : list nat).

(** The whole rejects with the reason of the first promise of the
    order that rejects. *)
Lemma first_rejection_first ps before i after e :
  Forall (fun i' => forall e', ps !! i' <> Some (inl e')) before ->
  ps !! i = Some (inl e) ->
  first_rejection ps (before ++ i :: after) = Some e.
Proof.
  intros Hbefore Hi. induction Hbefore as [|i' before Hi' _ IH]; simpl.
  - by rewrite Hi.
  - destruct (ps !! i') as [[e'|a]|] eqn:Hlook; [by destruct (Hi' e')|done|done].
Qed.

Lemma promise_all_first ps before i after e :
  Forall (fun i' => forall e', ps !! i' <> Some (inl e')) before ->
  ps !! i = Some (inl e) ->
  promise_all (before ++ i :: after) ps = inl e.
Proof.
  intros Hbefore Hi. unfold promise_all.
  by rewrite <- app_assoc, <- app_comm_cons, (first_rejection_first _ _ _ _ e).
Qed.

(** The promises that settled without a rejection are of no account. *)
Lemma first_rejection_arrivals ps seen order :
  Forall (fun i => forall e, ps !! i <> Some (inl e)) seen ->
  first_rejection ps (Analyzer.arrivals seen order) = first_rejection ps order.
Proof.
  revert seen. induction order as [|i order IH]; intros seen Hseen; simpl; [done|].
  destruct (decide (i ∈ seen)) as [Hin|Hout].
  - rewrite IH by done.
    destruct (ps !! i) as [[e|a]|] eqn:Hi; [|done|done].
    by destruct (proj1 (Forall_forall _ _) Hseen i Hin e).
  - simpl. destruct (ps !! i) as [[e|a]|] eqn:Hi; [done| |].
    + apply IH. constructor; [|done]. intros e. by rewrite Hi.
    + apply IH. constructor; [|done]. intros e. by rewrite Hi.
Qed.

Lemma first_rejection_filter ps sched order :
  first_rejection ps (filter (fun i => (i < length ps)%nat) sched ++ order)
  = first_rejection ps (sched ++ order).
Proof.
  induction sched as [|i sched IH]; simpl; [done|].
  destruct (decide (i < length ps)%nat) as [Hlt|Hge].
  - rewrite filter_cons_True by done. simpl. by rewrite IH.
  - rewrite filter_cons_False by done.
    by rewrite (lookup_ge_None_2 ps i) by lia.
Qed.

(** [Promise.all] over the order in which the promises settle is
    [Promise.all] over the schedule. *)
Lemma promise_all_settle_order sched ps :
  promise_all (Analyzer.settle_order sched (length ps)) ps = promise_all sched ps.
Proof.
  unfold promise_all, Analyzer.settle_order.
  set (l := filter _ sched ++ seq 0 (length ps)).
  assert (Hl : first_rejection ps l = first_rejection ps (sched ++ seq 0 (length ps)))
    by apply first_rejection_filter.
  assert (Harr : first_rejection ps (Analyzer.arrivals [] l) = first_rejection ps l)
    by (apply first_rejection_arrivals; constructor).
  assert (Htail : forall order,
             first_rejection ps (order ++ seq 0 (length ps))
             = match first_rejection ps order with
               | Some e => Some e
               | None => first_rejection ps (seq 0 (length ps))
               end).
  { intros order. induction order as [|i order IH]; simpl; [by destruct (first_rejection _ _)|].
    destruct (ps !! i) as [[e'|a]|]; auto. }
  assert (first_rejection ps (Analyzer.arrivals [] l ++ seq 0 (length ps))
          = first_rejection ps (sched ++ seq 0 (length ps))) as ->; [|done].
  rewrite (Htail (Analyzer.arrivals [] l)), Harr, Hl, (Htail sched).
  destruct (first_rejection ps sched); [done|].
  by destruct (first_rejection ps (seq 0 (length ps))).
Qed.
End FirstRejection.

Section Arrivals.
Implicit Types (seen order sched : list nat).

Lemma arrivals_elem seen order i :
  i ∈ Analyzer.arrivals seen order <-> i ∈ order /\ i ∉ seen.
Proof.
  revert seen. induction order as [|j order IH]; intros seen; simpl.
  - split; [by intros ?%elem_of_nil|by intros [?%elem_of_nil _]].
  - destruct (decide (j ∈ seen)) as [Hin|Hout].
    + rewrite IH, elem_of_cons. split; [tauto|]. intros [[->|?] ?]; tauto.
    + rewrite !elem_of_cons, IH, elem_of_cons. split.
      * intros [->|(? & ?)]; [tauto|]. split; [tauto|]. tauto.
      * intros [[->|?] ?]; [tauto|]. destruct (decide (i = j)) as [->|]; tauto.
Qed.

Lemma arrivals_NoDup seen order : NoDup (Analyzer.arrivals seen order).
Proof.
  revert seen. induction order as [|j order IH]; intros seen; simpl; [constructor|].
  destruct (decide (j ∈ seen)); [apply IH|].
  constructor; [|apply IH]. rewrite arrivals_elem, elem_of_cons. tauto.
Qed.

Lemma arrivals_prefix seen order later :
  NoDup order -> Forall (fun i => i ∉ seen) order ->
  exists rest, Analyzer.arrivals seen (order ++ later) = order ++ rest.
Proof.
  revert seen. induction order as [|i order IH]; intros seen Hnodup Hseen; simpl.
  - by eexists.
  - apply NoDup_cons in Hnodup as [Hi Hnodup]. apply Forall_cons in Hseen as [Hout Hseen].
    rewrite decide_False by done.
    destruct (IH (i :: seen) Hnodup) as [rest ->]; [|by eexists].
    apply Forall_forall. intros k Hk. rewrite elem_of_cons.
    intros [->|Hin]; [done|]. by apply (proj1 (Forall_forall _ _) Hseen k Hk).
Qed.

(** Every promise settles once. *)
Lemma settle_order_perm sched n : Analyzer.settle_order sched n ≡ₚ seq 0 n.
Proof.
  apply NoDup_Permutation; [apply arrivals_NoDup|apply NoDup_seq|].
  intros i. unfold Analyzer.settle_order.
  rewrite arrivals_elem, elem_of_app, list_elem_of_filter, !elem_of_seq.
  split; [|intros ?; split; [by right|by intros ?%elem_of_nil]].
  intros [[[? _]|?] _]; lia.
Qed.

(** The promises settle in the order of the schedule. *)
Lemma settle_order_prefix sched later n :
  NoDup sched -> Forall (fun i => (i < n)%nat) sched ->
  exists rest, Analyzer.settle_order (sched ++ later) n = sched ++ rest.
Proof.
  intros Hnodup Hlt. unfold Analyzer.settle_order.
  rewrite filter_app, <- app_assoc.
  assert (filter (fun i => (i < n)%nat) sched = sched) as ->.
  { clear Hnodup. induction Hlt as [|i sched Hi _ IH]; [done|].
    by rewrite filter_cons_True, IH. }
  apply arrivals_prefix; [done|].
  apply Forall_forall. by intros i _ ?%elem_of_nil.
Qed.

Lemma settle_order_complete order n :
  order ≡ₚ seq 0 n -> Analyzer.settle_order order n = order.
Proof.
  intros Hperm.
  destruct (settle_order_prefix order [] n) as [rest Hrest].
  - rewrite Hperm. apply NoDup_seq.
  - rewrite Hperm. apply Forall_forall. intros i ?%elem_of_seq. lia.
  - rewrite app_nil_r in Hrest.
    pose proof (settle_order_perm order n) as Hlen. rewrite <- Hperm in Hlen.
    apply Permutation_length in Hlen. rewrite Hrest, length_app in Hlen.
    destruct rest; [by rewrite app_nil_r in Hrest|simpl in Hlen; lia].
Qed.
End Arrivals.

(** Of four archives, the third answers first, and again, then one that
    is not there, then the first; the others follow in list order. *)
Example settle_order_schedule :
  Analyzer.settle_order [2; 2; 7; 0]%nat 4 = [2; 0; 1; 3]%nat.
Proof. reflexivity. Qed.



(** ** Fetching the games *)

Section Events.
Lemma fetched_urls_app t1 t2 : fetched_urls (t1 ++ t2) = fetched_urls t1 ++ fetched_urls t2.
Proof. apply omap_app. Qed.

Lemma fetched_urls_Fetched urls : fetched_urls (Fetched <$> urls) = urls.
Proof. induction urls as [|u urls IH]; [done|]. unfold fetched_urls in *. cbn. by f_equal. Qed.

Lemma events_bind {A B} (m : Eff A) (k : A -> Eff B) :
  Eff.events (Eff.bind m k)
  = match Eff.outcome m with
    | inl _ => Eff.events m
    | inr a => Eff.events m ++ Eff.events (k a)
    end.
Proof. destruct m as [t [e|a]]; simpl; [done|]. by destruct (k a). Qed.
End Events.

Section FetchGames.
Context {engine : ChessEngine} {parser : JsonParser}.
Variable epdLookup : gmap string OpeningData.

Lemma identifyOpening_no_fetch pgn :
  fetched_urls (Eff.events (Analyzer.identifyOpening epdLookup pgn)) = [].
Proof.
  unfold Analyzer.identifyOpening. destruct (negb _); [done|].
  simpl. by destruct (loadPgn _).
Qed.

Lemma withOpenings_no_fetch games results :
  fetched_urls (Eff.events (Analyzer.withOpenings epdLookup games results)) = [].
Proof.
  revert results. induction games as [|g games IH]; intros results; simpl; [done|].
  destruct (decide _); [|done].
  rewrite events_bind. destruct (Eff.outcome _).
  - apply identifyOpening_no_fetch.
  - by rewrite fetched_urls_app, identifyOpening_no_fetch, IH.
Qed.

Lemma decode_no_events {A} (schema : z.schema A) res :
  Eff.events (Analyzer.decode schema res) = [].
Proof.
  unfold Analyzer.decode. destruct (json_parse _); simpl; [|done].
  by destruct (schema _).
Qed.

(** What a response is decoded to depends on its body only, and the only
    failures are those of the JSON parser and of the schema. *)
Lemma decode_body {A} (schema : z.schema A) res :
  Analyzer.decode schema res
  = ([], match json_parse (body res) with
         | None => inl SyntaxError
         | Some j => match schema (Some j) with
                     | None => inl ZodError
                     | Some a => inr a
                     end
         end).
Proof.
  unfold Analyzer.decode. destruct (json_parse _); simpl; [|done].
  by destruct (schema _).
Qed.

Lemma archiveGames_no_fetch {net : Network} archive :
  fetched_urls (Eff.events (Analyzer.archiveGames epdLookup archive)) = [].
Proof.
  unfold Analyzer.archiveGames. rewrite events_bind.
  destruct (fetch archive) as [res|]; simpl; [|done].
  rewrite events_bind, decode_no_events.
  destruct (Eff.outcome _) as [e|games]; [done|].
  apply withOpenings_no_fetch.
Qed.

Lemma settled_events_no_fetch {A} (tasks : list (Eff A)) order :
  Forall (fun task => fetched_urls (Eff.events task) = []) tasks ->
  fetched_urls (Analyzer.settled_events tasks order) = [].
Proof.
  intros Htasks. induction order as [|i order IH]; simpl; [done|].
  destruct (tasks !! i) as [[t [e|a]]|] eqn:Hi; [| |done].
  - by apply (Forall_lookup_1 _ _ _ _ Htasks Hi).
  - rewrite fetched_urls_app, IH.
    pose proof (Forall_lookup_1 _ _ _ _ Htasks Hi) as Ht. simpl in Ht.
    by rewrite Ht.
Qed.

(** [fetchGames], step by step. *)
Lemma fetchGames_unfold {net : Network} sched handle :
  Analyzer.fetchGames epdLookup sched handle
  = let url := Analyzer.archives_url handle in
    match fetch url with
    | None => ([Fetched url], inl (FetchError url))
    | Some res =>
        match json_parse (body res) with
        | None => ([Fetched url], inl SyntaxError)
        | Some j =>
            match archiveSchema (Some j) with
            | None => ([Fetched url], inl ZodError)
            | Some archives =>
                let recent := JS.slice_from (-6) archives in
                let tasks := map (Analyzer.archiveGames epdLookup) recent in
                let order := Analyzer.settle_order sched (length tasks) in
                (Fetched url :: map Fetched recent ++ Analyzer.settled_events tasks order,
                 match promise_all order (map Eff.outcome tasks) with
                 | inl e => inl e
                 | inr pages => inr (concat pages)
                 end)
            end
        end
    end.
Proof.
  unfold Analyzer.fetchGames, Analyzer.request.
  cbn [Eff.bind Eff.emit]. destruct (fetch _) as [res|]; [|done].
  cbn [Eff.orThrow Eff.ret Eff.bind app]. rewrite decode_body.
  destruct (json_parse _) as [j|]; [|done].
  by destruct (archiveSchema _).
Qed.

Lemma withOpenings_games games results out :
  Eff.outcome (Analyzer.withOpenings epdLookup games results) = inr out ->
  game <$> out = (game <$> results) ++ filter (fun g => rules g = "chess") games /\
  (Forall (fun g => Eff.outcome (Analyzer.identifyOpening epdLookup (game_pgn (game g)))
                    = inr (opening g)) results ->
   Forall (fun g => Eff.outcome (Analyzer.identifyOpening epdLookup (game_pgn (game g)))
                    = inr (opening g)) out).
Proof.
  revert results. induction games as [|g games IH]; intros results; simpl.
  - intros [= <-]. by rewrite app_nil_r.
  - destruct (decide (rules g = "chess")) as [Hchess|Hother].
    + rewrite filter_cons_True by done.
      destruct (Analyzer.identifyOpening epdLookup (game_pgn g)) as [t [e|o]] eqn:Hid;
        simpl; [done|].
      destruct (Analyzer.withOpenings _ games _) as [t' r] eqn:Hrest. simpl.
      intros ->. specialize (IH (results ++ [{| game := g; opening := o |}]) ).
      rewrite Hrest in IH. destruct (IH eq_refl) as [Hgames Hopenings]. split.
      * rewrite Hgames, fmap_app. simpl. by rewrite <- app_assoc.
      * intros Hresults. apply Hopenings. apply Forall_app. split; [done|].
        constructor; [|done]. simpl. by rewrite Hid.
    + rewrite filter_cons_False by done. apply IH.
Qed.

Lemma identifyOpening_throws pgn e :
  Eff.outcome (Analyzer.identifyOpening epdLookup pgn) = inl e <->
  e = EngineError /\ pgn <> "" /\ loadPgn (Some pgn) = None.
Proof.
  unfold Analyzer.identifyOpening. destruct pgn as [|c s]; simpl.
  - split; [done|]. by intros (_ & ? & _).
  - destruct (loadPgn _) as [chess|]; simpl.
    + split; [done|]. by intros (_ & _ & ?).
    + split; [by intros [= <-]|]. by intros (-> & _).
Qed.

Lemma identifyOpening_events pgn :
  Eff.events (Analyzer.identifyOpening epdLookup pgn)
  = if decide (pgn = "") then [] else [Replayed pgn].
Proof.
  unfold Analyzer.identifyOpening. destruct pgn as [|c s]; simpl; [done|].
  by destruct (loadPgn _).
Qed.

Lemma withOpenings_complete games results page :
  game <$> page = filter (fun g => rules g = "chess") games ->
  Forall (fun g => Eff.outcome (Analyzer.identifyOpening epdLookup (game_pgn (game g)))
                   = inr (opening g)) page ->
  Eff.outcome (Analyzer.withOpenings epdLookup games results) = inr (results ++ page).
Proof.
  revert results page. induction games as [|g games IH]; intros results page; simpl.
  - destruct page; [|done]. by rewrite app_nil_r.
  - destruct (decide (rules g = "chess")) as [Hchess|Hother].
    + rewrite filter_cons_True by done. destruct page as [|[g' o] page]; [done|].
      simpl. intros [= -> Hgames] [Hid Hpage]%Forall_cons. simpl in Hid.
      destruct (Analyzer.identifyOpening epdLookup (game_pgn g)) as [t [e|o']] eqn:Hrun;
        simpl in Hid; [done|]. injection Hid as ->. simpl.
      specialize (IH (results ++ [{| game := g; opening := o |}]) page Hgames Hpage).
      destruct (Analyzer.withOpenings _ games _) as [t' r]. simpl in *.
      by rewrite IH, <- app_assoc.
    + rewrite filter_cons_False by done. apply IH.
Qed.

Lemma withOpenings_throws games results e :
  Eff.outcome (Analyzer.withOpenings epdLookup games results) = inl e <->
  e = EngineError /\
  exists g, g ∈ games /\ rules g = "chess" /\ game_pgn g <> "" /\
            loadPgn (Some (game_pgn g)) = None.
Proof.
  revert results. induction games as [|g games IH]; intros results; simpl.
  - split; [done|]. by intros (_ & g & ?%elem_of_nil & _).
  - destruct (decide (rules g = "chess")) as [Hchess|Hother].
    + destruct (Analyzer.identifyOpening epdLookup (game_pgn g)) as [t [e'|o]] eqn:Hrun; simpl.
      * assert (Hthrows : Eff.outcome (Analyzer.identifyOpening epdLookup (game_pgn g))
                          = inl e') by (by rewrite Hrun).
        apply identifyOpening_throws in Hthrows as (-> & Hpgn & Hload). split.
        -- intros [= <-]. split; [done|]. exists g. split_and!; [left|done|done|done].
        -- by intros (-> & _).
      * specialize (IH (results ++ [{| game := g; opening := o |}])).
        destruct (Analyzer.withOpenings _ games _) as [t' r]. simpl in *.
        rewrite IH. split.
        -- intros (-> & g' & Hin & Hg'). split; [done|]. exists g'. split; [by right|done].
        -- intros (-> & g' & [->|Hin]%elem_of_cons & Hrules & Hpgn & Hload).
           ++ assert (Hthrows : Eff.outcome (Analyzer.identifyOpening epdLookup (game_pgn g))
                                = inl EngineError) by (by apply identifyOpening_throws).
              by rewrite Hrun in Hthrows.
           ++ split; [done|]. by exists g'.
    + rewrite IH. split.
      * intros (-> & g' & Hin & Hg'). split; [done|]. exists g'. split; [by right|done].
      * intros (-> & g' & [->|Hin]%elem_of_cons & Hrules & Hg'); [done|].
        split; [done|]. by exists g'.
Qed.

Lemma withOpenings_events games results out :
  Eff.outcome (Analyzer.withOpenings epdLookup games results) = inr out ->
  Eff.events (Analyzer.withOpenings epdLookup games results)
  = Replayed <$> filter (fun pgn => pgn <> "")
                   (game_pgn <$> filter (fun g => rules g = "chess") games).
Proof.
  revert results. induction games as [|g games IH]; intros results; simpl; [done|].
  destruct (decide (rules g = "chess")) as [Hchess|Hother].
  - rewrite filter_cons_True by done.
    pose proof (identifyOpening_events (game_pgn g)) as Hev.
    destruct (Analyzer.identifyOpening epdLookup (game_pgn g)) as [t [e|o]]; simpl; [done|].
    specialize (IH (results ++ [{| game := g; opening := o |}])).
    destruct (Analyzer.withOpenings _ games _) as [t' r]. simpl in *.
    intros ->. rewrite (IH eq_refl), Hev.
    destruct (decide (game_pgn g = "")) as [Hempty|Hpgn].
    + by rewrite filter_cons_False by (by intros ?).
    + by rewrite filter_cons_True by done.
  - rewrite filter_cons_False by done. apply IH.
Qed.

Section Archives.
Context {net : Network}.

(** The games of one archive: those of its decoded body that are
    standard chess, in order, each with what [identifyOpening] returns
    for its move text. *)
Lemma archiveGames_page archive page :
  Eff.outcome (Analyzer.archiveGames epdLookup archive) = inr page ->
  exists res j decoded,
    fetch archive = Some res /\ json_parse (body res) = Some j /\
    gamesDataSchema (Some j) = Some decoded /\
    game <$> page = filter (fun g => rules g = "chess") decoded /\
    Forall (fun g => Eff.outcome (Analyzer.identifyOpening epdLookup (game_pgn (game g)))
                     = inr (opening g)) page.
Proof.
  unfold Analyzer.archiveGames.
  destruct (fetch archive) as [res|] eqn:Hfetch; [|done].
  cbn [Eff.orThrow Eff.bind Eff.ret]. rewrite decode_body.
  destruct (json_parse (body res)) as [j|] eqn:Hjson; [|done].
  destruct (gamesDataSchema (Some j)) as [decoded|] eqn:Hschema; [|done].
  cbn [Eff.bind app].
  destruct (Analyzer.withOpenings epdLookup decoded []) as [t r] eqn:Hwith.
  simpl. intros ->.
  pose proof (withOpenings_games decoded [] page) as Hpage. rewrite Hwith in Hpage.
  destruct (Hpage eq_refl) as [Hgames Hopenings].
  exists res, j, decoded. split_and!; [done|done|done|done|]. by apply Hopenings.
Qed.

Lemma archiveGames_page_iff archive page :
  Eff.outcome (Analyzer.archiveGames epdLookup archive) = inr page <->
  archive_page epdLookup archive page.
Proof.
  split; [apply archiveGames_page|].
  intros (res & j & decoded & Hfetch & Hjson & Hschema & Hgames & Hopenings).
  unfold Analyzer.archiveGames. rewrite Hfetch.
  cbn [Eff.orThrow Eff.bind Eff.ret]. rewrite decode_body, Hjson, Hschema.
  cbn [Eff.bind app].
  pose proof (withOpenings_complete decoded [] page Hgames Hopenings) as Hrun.
  by destruct (Analyzer.withOpenings epdLookup decoded []) as [t r].
Qed.

Lemma archiveGames_fails archive e :
  Eff.outcome (Analyzer.archiveGames epdLookup archive) = inl e <->
  archive_fails archive e.
Proof.
  unfold Analyzer.archiveGames, archive_fails.
  destruct (fetch archive) as [res|]; [|simpl; split; congruence].
  cbn [Eff.orThrow Eff.bind Eff.ret]. rewrite decode_body.
  destruct (json_parse (body res)) as [j|]; [|simpl; split; congruence].
  destruct (gamesDataSchema (Some j)) as [decoded|]; [|simpl; split; congruence].
  cbn [Eff.bind app].
  pose proof (withOpenings_throws decoded [] e) as Hrun.
  by destruct (Analyzer.withOpenings epdLookup decoded []) as [t r].
Qed.

Lemma archiveGames_replays archive page :
  archive_page epdLookup archive page ->
  Eff.events (Analyzer.archiveGames epdLookup archive) = replays page.
Proof.
  intros Hpage. pose proof (proj2 (archiveGames_page_iff archive page) Hpage) as Hrun.
  destruct Hpage as (res & j & decoded & Hfetch & Hjson & Hschema & Hgames & _).
  revert Hrun. unfold Analyzer.archiveGames, replays. rewrite Hfetch.
  cbn [Eff.orThrow Eff.bind Eff.ret]. rewrite decode_body, Hjson, Hschema.
  cbn [Eff.bind app].
  pose proof (withOpenings_events decoded [] page) as Hev.
  destruct (Analyzer.withOpenings epdLookup decoded []) as [t r]. simpl in *.
  intros ->. by rewrite (Hev eq_refl), Hgames.
Qed.

(** The callbacks return pages exactly when each archive gives its
    page. *)
Lemma archiveGames_pages recent pages :
  Eff.outcome <$> (Analyzer.archiveGames epdLookup <$> recent) = inr <$> pages <->
  Forall2 (archive_page epdLookup) recent pages.
Proof.
  revert pages. induction recent as [|a recent IH]; intros [|page pages]; simpl.
  - split; [constructor|done].
  - split; [done|]. intros Hnil. inversion Hnil.
  - split; [done|]. intros Hnil. inversion Hnil.
  - split.
    + intros [= Ha Hrest]. constructor; [by apply archiveGames_page_iff|by apply IH].
    + intros [Ha Hrest]%Forall2_cons. f_equal; [by apply archiveGames_page_iff|by apply IH].
Qed.

(** With every archive giving its page, the replays are those of the
    pages in the order in which the archives settle. *)
Lemma settled_events_pages recent pages order :
  Forall2 (archive_page epdLookup) recent pages ->
  Analyzer.settled_events (Analyzer.archiveGames epdLookup <$> recent) order
  = concat ((fun i => replays (default [] (pages !! i))) <$> order).
Proof.
  intros Hpages. induction order as [|i order IH]; simpl; [done|].
  rewrite list_lookup_fmap.
  destruct (recent !! i) as [a|] eqn:Ha; simpl.
  - destruct (Forall2_lookup_l _ _ _ _ _ Hpages Ha) as (page & Hi & Hpage).
    rewrite Hi. simpl.
    pose proof (archiveGames_replays a page Hpage) as Hev.
    pose proof (proj2 (archiveGames_page_iff a page) Hpage) as Hrun.
    destruct (Analyzer.archiveGames epdLookup a) as [t r]. simpl in *. subst.
    by rewrite IH.
  - assert (pages !! i = None) as ->.
    { apply lookup_ge_None. apply lookup_ge_None in Ha.
      by rewrite <- (Forall2_length _ _ _ Hpages). }
    by rewrite IH.
Qed.

(** What [fetchGames] returns or throws, once the archive list is
    there: [Promise.all] over the callbacks of the last six archives. *)
Lemma fetchGames_outcome sched handle res j archives :
  fetch (Analyzer.archives_url handle) = Some res ->
  json_parse (body res) = Some j ->
  archiveSchema (Some j) = Some archives ->
  Eff.outcome (Analyzer.fetchGames epdLookup sched handle)
  = match promise_all sched
            (Eff.outcome <$> (Analyzer.archiveGames epdLookup <$> JS.slice_from (-6) archives))
    with
    | inl e => inl e
    | inr pages => inr (concat pages)
    end.
Proof.
  intros Hfetch Hjson Hschema.
  rewrite fetchGames_unfold. cbv zeta. rewrite Hfetch, Hjson, Hschema.
  cbn [Eff.outcome snd].
  rewrite <- (promise_all_settle_order sched). by rewrite !length_fmap.
Qed.
End Archives.

(** C9. Once the archive list is there, whatever its length [n],
    [fetchGames] works on its last [min n 6] URLs and on nothing else.
    It requests the list and then each of these URLs, in list order. It
    returns games exactly when every one of these archives gives its
    page (its body is fetched, parsed and decoded, and every standard
    chess game in it is identified), and then it returns these pages
    one after the other; a list shorter than six is no failure and
    nothing is added for the archives that are not there. It throws
    only what one of these archives throws, and it throws when one of
    them does. *)
Theorem fetchGames_last_six {net : Network} (sched : list nat) (handle : string)
    (res : Response) (j : json) (archives : list string) :
  fetch (Analyzer.archives_url handle) = Some res ->
  json_parse (body res) = Some j ->
  archiveSchema (Some j) = Some archives ->
  let n := length archives in
  let recent := drop (n - (n `min` 6)) archives in
  let run := Analyzer.fetchGames epdLookup sched handle in
  length recent = (n `min` 6)%nat /\
  fetched_urls (Eff.events run) = Analyzer.archives_url handle :: recent /\
  (forall games,
      Eff.outcome run = inr games <->
      exists pages, Forall2 (archive_page epdLookup) recent pages /\ games = concat pages) /\
  (forall e,
      Eff.outcome run = inl e ->
      exists archive, archive ∈ recent /\ archive_fails archive e) /\
  (forall archive e,
      archive ∈ recent -> archive_fails archive e -> exists e', Eff.outcome run = inl e').
Proof.
  intros Hfetch Hjson Hschema n recent run.
  assert (Hrecent : JS.slice_from (-6) archives = recent) by (apply (slice_from_neg 6); lia).
  pose proof (fetchGames_outcome sched handle res j archives Hfetch Hjson Hschema) as Hrun.
  rewrite Hrecent in Hrun. fold run in Hrun.
  split_and!.
  - unfold recent. rewrite length_drop. lia.
  - unfold run. rewrite fetchGames_unfold. cbv zeta. rewrite Hfetch, Hjson, Hschema, Hrecent.
    cbn [Eff.events fst].
    change (fetched_urls (Fetched ?u :: ?t)) with (u :: fetched_urls t). f_equal.
    rewrite fetched_urls_app, fetched_urls_Fetched.
    rewrite settled_events_no_fetch; [by rewrite app_nil_r|].
    apply Forall_fmap, Forall_forall. intros archive _. apply archiveGames_no_fetch.
  - intros games. rewrite Hrun. split.
    + destruct (promise_all _ _) as [e|pages] eqn:Hall; [done|]. intros [= <-].
      exists pages. split; [|done]. by apply archiveGames_pages, (promise_all_inr sched).
    + intros (pages & Hpages & ->). apply archiveGames_pages in Hpages.
      by rewrite Hpages, promise_all_fulfills.
  - intros e. rewrite Hrun. unfold promise_all.
    destruct (first_rejection _ _) as [e'|] eqn:Hfirst; [|done]. intros [= <-].
    apply first_rejection_elem in Hfirst.
    apply list_elem_of_fmap in Hfirst as (task & Htask & Hin).
    apply list_elem_of_fmap in Hin as (archive & -> & Hin).
    exists archive. split; [done|]. by apply archiveGames_fails.
  - intros archive e Hin Hfails. rewrite Hrun.
    destruct (promise_all_rejects sched
                (Eff.outcome <$> (Analyzer.archiveGames epdLookup <$> recent)) e)
      as (e' & -> & _); [|by exists e'].
    apply archiveGames_fails in Hfails. rewrite <- Hfails.
    apply list_elem_of_fmap_2. by apply list_elem_of_fmap_2.
Qed.

(** C10. [fetchGames] reads the body of a response and nothing else of
    it: two sources that answer every URL with the same body, under any
    status, give the same games or the same exception; and a response is
    turned down only by the JSON parser or by the schema. *)
Theorem fetchGames_ignores_status (net1 net2 : Network) (sched : list nat)
    (handle : string) :
  (forall url, body <$> @fetch net1 url = body <$> @fetch net2 url) ->
  Analyzer.fetchGames (net := net1) epdLookup sched handle
    = Analyzer.fetchGames (net := net2) epdLookup sched handle /\
  (forall A (schema : z.schema A) res res',
      body res = body res' -> Analyzer.decode schema res = Analyzer.decode schema res') /\
  (forall A (schema : z.schema A) res e,
      Eff.outcome (Analyzer.decode schema res) = inl e -> e = SyntaxError \/ e = ZodError).
Proof.
  intros Hbody. split_and!.
  - assert (Harchive : forall archive,
               Analyzer.archiveGames (net := net1) epdLookup archive
               = Analyzer.archiveGames (net := net2) epdLookup archive).
    { intros archive. unfold Analyzer.archiveGames. specialize (Hbody archive).
      destruct (@fetch net1 archive) as [r1|], (@fetch net2 archive) as [r2|];
        simplify_eq; [|done].
      cbn [Eff.orThrow Eff.bind Eff.ret]. by rewrite !decode_body, Hbody. }
    rewrite !fetchGames_unfold. cbv zeta.
    pose proof (Hbody (Analyzer.archives_url handle)) as Hlist.
    destruct (@fetch net1 _) as [r1|], (@fetch net2 _) as [r2|];
      simplify_eq; [|done].
    rewrite Hlist.
    destruct (json_parse (body r2)) as [j|]; [|done].
    destruct (archiveSchema (Some j)) as [archives|]; [|done].
    cbv zeta.
    assert (map (Analyzer.archiveGames (net := net1) epdLookup) (JS.slice_from (-6) archives)
            = map (Analyzer.archiveGames (net := net2) epdLookup) (JS.slice_from (-6) archives))
      as -> by (apply map_ext; intros; apply Harchive).
    done.
  - intros A schema res res' Hres. by rewrite !decode_body, Hres.
  - intros A schema res e. rewrite decode_body. simpl.
    destruct (json_parse _); [|intros [= <-]; by left].
    destruct (schema _); [done|intros [= <-]; by right].
Qed.
End FetchGames.

Lemma fetchGames_last_six_witness :
  let run list :=
    Analyzer.fetchGames (engine := Demo.engine) (parser := Demo.parser2)
      (net := Demo.season_net list "january" "february") Demo.index [] "alice" in
  let page_of :=
    archive_page (engine := Demo.engine) (parser := Demo.parser2)
      (net := Demo.season_net "two" "january" "february") Demo.index in
  let two := [Demo.archive_2024_01; Demo.archive_2024_02] in
  (fetched_urls (Eff.events (run "two")) = Analyzer.archives_url "alice" :: two /\
   exists pages,
     Forall2 page_of two pages /\
     (fun g => (game_pgn (game g), opening g)) <$> concat pages
     = [("1. e4 e5", Found Demo.open_game); ("1. e4 a6", Found Demo.kings_pawn)]) /\
  (fetched_urls (Eff.events (run "seven")) = Analyzer.archives_url "alice" :: two ++ two ++ two /\
   exists games, Eff.outcome (run "seven") = inr games /\ length games = 6%nat).
Proof.
  cbv zeta. split.
  - destruct (Eff.outcome
                (Analyzer.fetchGames (engine := Demo.engine) (parser := Demo.parser2)
                   (net := Demo.season_net "two" "january" "february") Demo.index [] "alice"))
      as [e|games] eqn:Hrun; [by vm_compute in Hrun|].
    destruct (fetchGames_last_six (engine := Demo.engine) (parser := Demo.parser2) Demo.index
                (net := Demo.season_net "two" "january" "february") [] "alice" _ _
                [Demo.archive_2024_01; Demo.archive_2024_02] eq_refl eq_refl eq_refl)
      as (_ & Hurls & Hgames & _).
    split; [exact Hurls|].
    destruct (proj1 (Hgames games) Hrun) as (pages & Hpages & Hconcat).
    exists pages. split; [exact Hpages|].
    rewrite <- Hconcat. vm_compute in Hrun. by injection Hrun as <-.
  - destruct (fetchGames_last_six (engine := Demo.engine) (parser := Demo.parser2) Demo.index
                (net := Demo.season_net "seven" "january" "february") [] "alice" _ _
                [Demo.archive_2023_07; Demo.archive_2024_01; Demo.archive_2024_02;
                 Demo.archive_2024_01; Demo.archive_2024_02;
                 Demo.archive_2024_01; Demo.archive_2024_02] eq_refl eq_refl eq_refl)
      as (_ & Hurls & _).
    split; [exact Hurls|].
    destruct (Eff.outcome
                (Analyzer.fetchGames (engine := Demo.engine) (parser := Demo.parser2)
                   (net := Demo.season_net "seven" "january" "february") Demo.index [] "alice"))
      as [e|games] eqn:Hrun; [by vm_compute in Hrun|].
    exists games. split; [done|]. vm_compute in Hrun. by injection Hrun as <-.
Defined.

Lemma fetchGames_ignores_status_witness :
  Analyzer.fetchGames (engine := Demo.engine) (parser := Demo.parser)
    (net := Demo.archive_net true 200 "OK") Demo.index [] "alice"
  = Analyzer.fetchGames (engine := Demo.engine) (parser := Demo.parser)
      (net := Demo.archive_net false 404 "Not Found") Demo.index [] "alice".
Proof.
  apply (fetchGames_ignores_status (engine := Demo.engine) (parser := Demo.parser) Demo.index
           (Demo.archive_net true 200 "OK") (Demo.archive_net false 404 "Not Found")).
  intros url. unfold fetch, Demo.archive_net. by repeat case_decide.
Defined.

(** Under the status 404 the games of the archive are returned all the
    same: the standard game with its opening, the variant left out. *)
Example fetchGames_not_found_status :
  match Eff.outcome (Analyzer.fetchGames (engine := Demo.engine) (parser := Demo.parser)
                       (net := Demo.archive_net false 404 "Not Found") Demo.index [] "alice") with
  | inr games => Some (map (fun g => (game_pgn (game g), opening g)) games)
  | inl _ => None
  end = Some [("1. e4 e5", Found Demo.open_game)].
Proof. vm_compute. reflexivity. Qed.


(** ** Counting the games *)

Section Stats.
Context {strcase : StringCase}.
Implicit Types (st : Analyzer.OpeningStats) (g : GameWithOpening) (c : Analyzer.Color).

Lemma table_with_table c c' t st :
  Analyzer.table c' (Analyzer.with_table c t st)
  = if decide (c' = c) then t else Analyzer.table c' st.
Proof. by destruct c, c'. Qed.

Lemma openingStats_snoc handle games g :
  Analyzer.openingStats handle (games ++ [g])
  = Analyzer.record_game handle (Analyzer.openingStats handle games) g.
Proof. unfold Analyzer.openingStats. by rewrite foldl_app. Qed.

(** A game without an opening changes nothing. *)
Lemma record_game_skip handle st g :
  matched (opening g) = false -> Analyzer.record_game handle st g = st.
Proof. unfold Analyzer.record_game. by destruct (opening g). Qed.

(** A game with an opening counts in one accumulator, that of the color
    of the player and of the name of the opening, made on its first
    game; every other accumulator is left as it is. *)
Lemma record_game_get handle st g data c k :
  opening g = Found data ->
  JS.get k (Analyzer.table c (Analyzer.record_game handle st g))
  = if decide (c = Analyzer.playerColor handle (game g) /\ k = Analyzer.name_key data)
    then Some (Analyzer.count (Analyzer.gameResult handle (game g))
                 (default Analyzer.initialStats
                    (JS.get k (Analyzer.table c st))))
    else JS.get k (Analyzer.table c st).
Proof.
  intros Hopen. unfold Analyzer.record_game. rewrite Hopen.
  cbv zeta. rewrite table_with_table.
  set (pc := Analyzer.playerColor handle (game g)).
  set (key := Analyzer.name_key data).
  destruct (decide (c = pc)) as [->|Hc].
  - rewrite get_set. destruct (decide (key = k)) as [<-|Hk].
    + rewrite decide_True by done. do 2 f_equal.
      destruct (JS.get key (Analyzer.table pc st)) eqn:Hget.
      * by rewrite Hget.
      * rewrite get_set. by rewrite decide_True.
    + rewrite decide_False by (intros [_ ?]; congruence).
      destruct (JS.get key (Analyzer.table pc st)); [done|].
      rewrite get_set. by rewrite decide_False.
  - by rewrite decide_False by (intros [? _]; congruence).
Qed.

Lemma record_game_NoDup handle st g c :
  NoDup (Analyzer.table c st).*1 ->
  NoDup (Analyzer.table c (Analyzer.record_game handle st g)).*1.
Proof.
  intros Hnd. unfold Analyzer.record_game.
  destruct (opening g) as [| |data]; [done|done|].
  cbv zeta. rewrite table_with_table. destruct (decide _) as [->|]; [|done].
  apply set_NoDup. destruct (JS.get _ _); [done|]. by apply set_NoDup.
Qed.

Lemma openingStats_NoDup handle games c :
  NoDup (Analyzer.table c (Analyzer.openingStats handle games)).*1.
Proof.
  induction games as [|g games IH] using rev_ind.
  - destruct c; apply NoDup_nil_2.
  - rewrite openingStats_snoc. by apply record_game_NoDup.
Qed.

(** C4. For a game with an opening: the player is white exactly when
    the lower-cased username of the white side is the lower-cased
    handle, and black otherwise; the outcome is a draw when the two
    result strings are equal, a win when they differ and the result of
    the player's side is ["win"], a loss in every other case; and the
    game is counted under that outcome in the accumulator of that color
    and of the name of the opening, and nowhere else. *)
Theorem record_game_bucket handle st g data :
  opening g = Found data ->
  let color := Analyzer.playerColor handle (game g) in
  let outcome := Analyzer.gameResult handle (game g) in
  let white_result := result (white (game g)) in
  let black_result := result (black (game g)) in
  let own_result := result (Analyzer.side color (game g)) in
  (color = Analyzer.White <-> toLowerCase (username (white (game g))) = toLowerCase handle) /\
  (color = Analyzer.Black <-> toLowerCase (username (white (game g))) <> toLowerCase handle) /\
  (outcome = Analyzer.Draw <-> white_result = black_result) /\
  (outcome = Analyzer.Win <-> white_result <> black_result /\ own_result = "win") /\
  (outcome = Analyzer.Loss <-> white_result <> black_result /\ own_result <> "win") /\
  (forall c k,
      JS.get k (Analyzer.table c (Analyzer.record_game handle st g))
      = if decide (c = color /\ k = Analyzer.name_key data)
        then Some (Analyzer.count outcome
                     (default Analyzer.initialStats (JS.get k (Analyzer.table c st))))
        else JS.get k (Analyzer.table c st)).
Proof.
  intros Hopen. cbv zeta. unfold Analyzer.gameResult, Analyzer.opponentColor.
  split_and!.
  - unfold Analyzer.playerColor. by destruct (decide _).
  - unfold Analyzer.playerColor. by destruct (decide _).
  - destruct (Analyzer.playerColor handle (game g)); simpl;
      repeat destruct (decide _); intuition congruence.
  - destruct (Analyzer.playerColor handle (game g)); simpl;
      repeat destruct (decide _); intuition congruence.
  - destruct (Analyzer.playerColor handle (game g)); simpl;
      repeat destruct (decide _); intuition congruence.
  - intros c k. by apply record_game_get.
Qed.
End Stats.

Lemma record_game_bucket_witness :
  let st := Analyzer.record_game (strcase := Demo.ascii_case) "alice"
              {| Analyzer.stats_white := []; Analyzer.stats_black := [] |}
              (Demo.played "resigned" "win" (Found Demo.italian)) in
  Analyzer.playerColor (strcase := Demo.ascii_case) "alice"
    (game (Demo.played "resigned" "win" (Found Demo.italian))) = Analyzer.White /\
  Analyzer.gameResult (strcase := Demo.ascii_case) "alice"
    (game (Demo.played "resigned" "win" (Found Demo.italian))) = Analyzer.Loss /\
  JS.get "Italian Game" (Analyzer.table Analyzer.White st)
    = Some {| Analyzer.total := 1; Analyzer.wins := 0; Analyzer.losses := 1; Analyzer.draws := 0 |}.
Proof.
  pose proof (record_game_bucket (strcase := Demo.ascii_case) "alice"
                {| Analyzer.stats_white := []; Analyzer.stats_black := [] |}
                (Demo.played "resigned" "win" (Found Demo.italian)) Demo.italian eq_refl)
    as (Hwhite & _ & _ & _ & Hloss & Hget).
  split_and!.
  - apply Hwhite. reflexivity.
  - apply Hloss. split; discriminate.
  - cbv zeta. rewrite Hget. reflexivity.
Defined.

Section Totals.
Context {strcase : StringCase}.

Lemma incr_exact n : (n < 2 ^ 53)%N -> Analyzer.incr n = (n + 1)%N.
Proof. intros Hn. unfold Analyzer.incr. by destruct (N.ltb_spec n (2 ^ 53)); [|lia]. Qed.

Lemma count_one_more n r s :
  (n < 2 ^ 53)%N -> counted n s ->
  one_more r s (Analyzer.count r s) /\ counted (n + 1) (Analyzer.count r s).
Proof.
  intros Hn [Hsum Hle]. unfold one_more, counted.
  destruct r; simpl; rewrite !incr_exact by lia; lia.
Qed.

Lemma counted_initial n : counted n Analyzer.initialStats.
Proof. split; simpl; lia. Qed.

Lemma counted_mono n m s : (n <= m)%N -> counted n s -> counted m s.
Proof. intros ? [? ?]. split; [done|lia]. Qed.

Lemma openingStats_counted handle games c k s :
  (N.of_nat (length games) <= 2 ^ 53)%N ->
  JS.get k (Analyzer.table c (Analyzer.openingStats handle games)) = Some s ->
  counted (N.of_nat (length games)) s.
Proof.
  revert c k s. induction games as [|g games IH] using rev_ind; intros c k s Hlen.
  - by destruct c.
  - rewrite length_app in Hlen. simpl in Hlen.
    rewrite openingStats_snoc, length_app. simpl.
    replace (N.of_nat (length games + 1)) with (N.of_nat (length games) + 1)%N by lia.
    assert (Hprev : forall c k s,
               JS.get k (Analyzer.table c (Analyzer.openingStats handle games)) = Some s ->
               counted (N.of_nat (length games)) s)
      by (intros c' k' s' Hget'; apply (IH c' k' s'); [lia|done]).
    destruct (opening g) as [| |data] eqn:Hopen.
    1,2: rewrite record_game_skip by (by rewrite Hopen); intros Hget;
         apply (counted_mono (N.of_nat (length games))); [lia|by apply (Hprev c k)].
    rewrite (record_game_get _ _ _ data) by done.
    destruct (decide _) as [[-> ->]|_].
    + intros [= <-]. apply count_one_more; [lia|].
      destruct (JS.get _ _) as [s0|] eqn:Hget; simpl.
      * by apply (Hprev (Analyzer.playerColor handle (game g)) (Analyzer.name_key data)).
      * apply counted_initial.
    + intros Hget. apply (counted_mono (N.of_nat (length games))); [lia|].
      by apply (Hprev c k).
Qed.

(** C3. While the games are at most [2^53] (an array holds fewer than
    [2^32]), after every game each accumulator has [total] equal to
    [wins + losses + draws]; and a game with an opening adds one to the
    total and to exactly one of the three counters of its accumulator. *)
Theorem stats_total_is_sum (handle : string) (games : list GameWithOpening) :
  (N.of_nat (length games) <= 2 ^ 53)%N ->
  forall played rest, games = played ++ rest ->
    (forall c k s,
        JS.get k (Analyzer.table c (Analyzer.openingStats handle played)) = Some s ->
        (Analyzer.total s = Analyzer.wins s + Analyzer.losses s + Analyzer.draws s)%N) /\
    (forall g rest' data,
        rest = g :: rest' -> opening g = Found data ->
        let c := Analyzer.playerColor handle (game g) in
        let k := Analyzer.name_key data in
        let before := default Analyzer.initialStats
                        (JS.get k (Analyzer.table c (Analyzer.openingStats handle played))) in
        exists after,
          JS.get k (Analyzer.table c (Analyzer.openingStats handle (played ++ [g])))
            = Some after /\
          one_more (Analyzer.gameResult handle (game g)) before after).
Proof.
  intros Hlen played rest ->. rewrite length_app in Hlen. split.
  - intros c k s Hget. by apply (openingStats_counted handle played c k s); [lia|].
  - intros g rest' data -> Hopen c k before. simpl in Hlen.
    rewrite openingStats_snoc, (record_game_get _ _ _ data) by done.
    rewrite decide_True by done. eexists. split; [reflexivity|].
    apply (count_one_more (N.of_nat (length played))); [lia|].
    unfold before. destruct (JS.get _ _) as [s0|] eqn:Hget; simpl.
    + apply (openingStats_counted handle played c k s0); [lia|done].
    + apply counted_initial.
Qed.
End Totals.

Lemma stats_total_is_sum_witness :
  JS.get "Italian Game"
    (Analyzer.table Analyzer.White
       (Analyzer.openingStats (strcase := Demo.ascii_case) "alice" Demo.three_games))
  = Some {| Analyzer.total := 3; Analyzer.wins := 1; Analyzer.losses := 1; Analyzer.draws := 1 |} /\
  (3 = 1 + 1 + 1)%N.
Proof.
  split; [reflexivity|].
  exact (proj1 (stats_total_is_sum (strcase := Demo.ascii_case) "alice" Demo.three_games
                  ltac:(vm_compute; discriminate) Demo.three_games [] (eq_sym (app_nil_r _)))
           Analyzer.White "Italian Game" _ eq_refl).
Defined.


(** ** The arithmetic of the win rates

    [SpecFloat] gives the operations of binary64; what the sort needs of
    them is proved here from their definitions: a win rate is never [NaN]
    nor negative, and the sign of a difference of two win rates is that of
    the difference of their values. *)

Section Binary64.
Local Abbreviation prec := F64.prec.
Local Abbreviation emax := F64.emax.
Local Open Scope Z_scope.

Lemma emin_eq : emin prec emax = -1074.
Proof. reflexivity. Qed.

Lemma fexp_eq e : fexp prec emax e = Z.max (e - 53) (-1074).
Proof. reflexivity. Qed.

Lemma fexp_ge e : -1074 <= fexp prec emax e.
Proof. rewrite fexp_eq. lia. Qed.

(** *** Digits and shifts *)

Lemma digits2_bounds m :
  2 ^ (Zpos (digits2_pos m) - 1) <= Zpos m < 2 ^ Zpos (digits2_pos m).
Proof.
  induction m as [m IH|m IH|]; simpl digits2_pos.
  - rewrite Pos2Z.inj_succ, Z.pow_succ_r by lia.
    replace (Z.succ (Zpos (digits2_pos m)) - 1) with (Z.succ (Zpos (digits2_pos m) - 1)) by lia.
    rewrite Z.pow_succ_r by lia. lia.
  - rewrite Pos2Z.inj_succ, Z.pow_succ_r by lia.
    replace (Z.succ (Zpos (digits2_pos m)) - 1) with (Z.succ (Zpos (digits2_pos m) - 1)) by lia.
    rewrite Z.pow_succ_r by lia. lia.
  - simpl. lia.
Qed.

Lemma iter_xO_value m d : Zpos (Pos.iter xO m d) = Zpos m * 2 ^ Zpos d.
Proof.
  induction d as [|d IH] using Pos.peano_ind.
  - simpl. lia.
  - rewrite Pos.iter_succ, Pos2Z.inj_succ, Z.pow_succ_r by lia.
    change (Z.pos (Pos.iter xO m d)~0) with (2 * Z.pos (Pos.iter xO m d)).
    rewrite IH. lia.
Qed.

Lemma iter_xO_digits m d :
  Zpos (digits2_pos (Pos.iter xO m d)) = Zpos (digits2_pos m) + Zpos d.
Proof.
  induction d as [|d IH] using Pos.peano_ind.
  - simpl. lia.
  - rewrite Pos.iter_succ. simpl digits2_pos. rewrite !Pos2Z.inj_succ, IH. lia.
Qed.

Lemma shr_1_m mrs : 0 <= shr_m mrs -> shr_m (shr_1 mrs) = shr_m mrs / 2.
Proof.
  destruct mrs as [m r s]. simpl. intros Hm.
  destruct m as [|[p|p|]|p]; cbn [shr_m]; [reflexivity| | |reflexivity|lia].
  - apply (Z.div_unique _ _ _ 1); lia.
  - apply (Z.div_unique _ _ _ 0); lia.
Qed.

Lemma iter_shr_m p mrs :
  0 <= shr_m mrs -> shr_m (SpecFloat.iter_pos shr_1 p mrs) = shr_m mrs / 2 ^ Zpos p.
Proof.
  revert mrs. induction p as [p IH|p IH|]; intros mrs Hm; simpl SpecFloat.iter_pos.
  - assert (H1 : 0 <= shr_m (shr_1 mrs)) by (rewrite shr_1_m by done; apply Z.div_pos; lia).
    assert (H2 : 0 <= shr_m (SpecFloat.iter_pos shr_1 p (shr_1 mrs)))
      by (rewrite IH by done; apply Z.div_pos; lia).
    rewrite !IH, shr_1_m by done.
    rewrite !Z.div_div by lia. f_equal.
    change (Z.pos p~1) with (2 * Z.pos p + 1).
    replace (2 * Z.pos p + 1) with (1 + Z.pos p + Z.pos p) by lia.
    rewrite !Z.pow_add_r by lia. change (2 ^ 1) with 2. lia.
  - assert (H1 : 0 <= shr_m (SpecFloat.iter_pos shr_1 p mrs))
      by (rewrite IH by done; apply Z.div_pos; lia).
    rewrite !IH by done. rewrite Z.div_div by lia. f_equal.
    change (Z.pos p~0) with (2 * Z.pos p).
    replace (2 * Z.pos p) with (Z.pos p + Z.pos p) by lia.
    rewrite !Z.pow_add_r by lia. lia.
  - rewrite shr_1_m by done. f_equal.
Qed.

Lemma shr_record_of_loc_m m l : shr_m (shr_record_of_loc m l) = m.
Proof. by destruct l as [|[]]. Qed.

Lemma round_nearest_even_bounds m l :
  m <= round_nearest_even m l <= m + 1.
Proof. destruct l as [|[]]; simpl; try lia. destruct (Z.even m); lia. Qed.

(** *** Rounding *)

Lemma Zdigits2_nonneg m : 0 <= Zdigits2 m.
Proof. by destruct m. Qed.

Lemma Zdigits2_succ_le a b :
  0 <= a -> 0 <= b -> a <= b + 1 -> Zdigits2 a <= Zdigits2 b + 1.
Proof.
  intros Ha Hb Hab. pose proof (Zdigits2_nonneg b).
  destruct a as [|a|a]; [simpl; lia| |lia].
  destruct b as [|b|b]; [|simpl Zdigits2|lia].
  - assert (Z.pos a = 1) as [= ->] by lia. simpl. lia.
  - pose proof (digits2_bounds a) as [Ha1 _].
    pose proof (digits2_bounds b) as [_ Hb2].
    assert (Hpow : 2 ^ (Z.pos (digits2_pos a) - 1) <= 2 ^ Z.pos (digits2_pos b)) by lia.
    apply Z.pow_le_mono_r_iff in Hpow; lia.
Qed.

(** The right shift to the format: the mantissa stays between zero and
    what it was, the exponent is the larger of what it was and of that
    of the format, which is at or above the least exponent; from at or
    above the least exponent a positive mantissa stays positive. *)
Lemma shr_fexp_spec m e l mrs e' :
  0 <= m ->
  shr_fexp prec emax m e l = (mrs, e') ->
  0 <= shr_m mrs <= m /\ -1074 <= e' /\
  e' = Z.max e (fexp prec emax (Zdigits2 m + e)) /\
  (0 < m -> -1074 <= e -> 0 < shr_m mrs).
Proof.
  intros Hm. unfold shr_fexp, shr.
  pose proof (fexp_ge (Zdigits2 m + e)) as Hfexp.
  destruct (fexp prec emax (Zdigits2 m + e) - e) as [|p|p] eqn:Hn;
    intros [= <- <-]; rewrite ?iter_shr_m, shr_record_of_loc_m
      by (by rewrite shr_record_of_loc_m).
  - split_and!; lia.
  - assert (0 < 2 ^ Z.pos p) by (apply Z.pow_pos_nonneg; lia).
    split_and!; [apply Z.div_pos; lia | | lia | lia |].
    + apply Z.div_le_upper_bound; [lia|]. nia.
    + intros Hpos He. destruct m as [|m|m]; [lia| |lia].
      pose proof (digits2_bounds m) as [Hlow _].
      rewrite fexp_eq in Hn. simpl Zdigits2 in Hn.
      apply Z.div_str_pos. split; [lia|].
      etrans; [|exact Hlow]. apply Z.pow_le_mono_r; lia.
  - split_and!; lia.
Qed.

(** The result of a rounding: its sign is the one asked for, it is not
    [NaN], a finite result is at or above the least exponent, and a
    positive mantissa at or above the least exponent is not rounded to
    zero. *)
Lemma binary_round_aux_spec s m e l :
  0 <= m ->
  let r := binary_round_aux prec emax s m e l in
  (r = S754_zero s \/ r = S754_infinity s \/
   exists m' e', r = S754_finite s m' e' /\ -1074 <= e') /\
  (0 < m -> -1074 <= e -> r <> S754_zero s) /\
  (Zdigits2 m <= 54 -> e <= 0 -> r <> S754_infinity s).
Proof.
  intros Hm. unfold binary_round_aux.
  destruct (shr_fexp prec emax m e l) as [mrs' e'] eqn:H1.
  apply shr_fexp_spec in H1 as (Hm' & He' & Hmax' & Hpos'); [|done].
  pose proof (round_nearest_even_bounds (shr_m mrs') (loc_of_shr_record mrs')) as Hround.
  set (m1 := round_nearest_even (shr_m mrs') (loc_of_shr_record mrs')) in *.
  destruct (shr_fexp prec emax m1 e' loc_Exact) as [mrs'' e''] eqn:H2.
  apply shr_fexp_spec in H2 as (Hm'' & He'' & Hmax'' & Hpos''); [|lia].
  destruct (shr_m mrs'') as [|p|p] eqn:Hp; [| |lia].
  - split_and!; [by left| |done]. intros Hpos He. specialize (Hpos' Hpos He). lia.
  - split_and!.
    + destruct (_ <=? _); [|by right; left]. right; right. eauto.
    + by destruct (_ <=? _).
    + intros Hd He.
      pose proof (Zdigits2_succ_le m1 m ltac:(lia) Hm ltac:(lia)) as Hd1.
      pose proof (Zdigits2_nonneg m). pose proof (Zdigits2_nonneg m1).
      rewrite fexp_eq in Hmax', Hmax''.
      destruct (Z.leb_spec e'' (emax - prec)) as [|Hgt]; [done|].
      unfold emax, prec, F64.emax, F64.prec in Hgt. lia.
Qed.

Lemma shl_align_exponent m e e' :
  -1074 <= e -> -1074 <= e' -> -1074 <= snd (shl_align m e e').
Proof. unfold shl_align. by destruct (e' - e). Qed.

Lemma shl_align_value m e e' :
  e' <= e -> Zpos (fst (shl_align m e e')) = Zpos m * 2 ^ (e - e').
Proof.
  intros He. unfold shl_align. destruct (e' - e) as [|d|d] eqn:Hd; simpl; [|lia|].
  - replace (e - e') with 0 by lia. lia.
  - rewrite iter_xO_value. f_equal. f_equal. lia.
Qed.

(** Rounding a positive integer times a power of two at or above the
    least exponent: not zero, not [NaN], of the sign asked for. *)
Lemma binary_round_spec s m e :
  -1074 <= e ->
  let r := binary_round prec emax s m e in
  r = S754_infinity s \/ exists m' e', r = S754_finite s m' e' /\ -1074 <= e'.
Proof.
  intros He. unfold binary_round.
  pose proof (shl_align_exponent m e (fexp prec emax (Zpos (digits2_pos m) + e)) He
                (fexp_ge _)) as Hez.
  destruct (shl_align m e _) as [mz ez]. simpl in Hez.
  destruct (binary_round_aux_spec s (Zpos mz) ez loc_Exact ltac:(lia)) as (Hcases & Hnz & _).
  destruct Hcases as [Hz|[Hinf|Hfin]]; [|by left|by right].
  by destruct Hnz.
Qed.
(** *** The numbers the win rates are made of *)

(** An integer up to [2^53] converts to a finite number. *)
Lemma of_N_finite n :
  (0 < n <= 2 ^ 53)%N ->
  exists m e, F64.of_N n = S754_finite false m e /\ -1074 <= e.
Proof.
  intros Hn. unfold F64.of_N. destruct n as [|p]; [lia|].
  simpl binary_normalize. unfold binary_round.
  pose proof (digits2_bounds p) as [Hlow _].
  assert (Hd : Z.pos (digits2_pos p) <= 54).
  { assert (Hpow : 2 ^ (Z.pos (digits2_pos p) - 1) <= 2 ^ 53) by lia.
    apply Z.pow_le_mono_r_iff in Hpow; lia. }
  rewrite fexp_eq.
  pose proof (shl_align_exponent p 0 (Z.max (Z.pos (digits2_pos p) + 0 - 53) (-1074))
                ltac:(lia) ltac:(lia)) as Hez.
  assert (Hshape : Zdigits2 (Z.pos (fst (shl_align p 0
                      (Z.max (Z.pos (digits2_pos p) + 0 - 53) (-1074))))) <= 54 /\
                   snd (shl_align p 0 (Z.max (Z.pos (digits2_pos p) + 0 - 53) (-1074))) <= 0).
  { unfold shl_align.
    destruct (Z.max (Z.pos (digits2_pos p) + 0 - 53) (-1074) - 0) as [|d|d] eqn:Hshift;
      simpl fst; simpl snd; simpl Zdigits2; [lia|lia|].
    rewrite iter_xO_digits. lia. }
  destruct (shl_align p 0 _) as [mz ez]. simpl in Hez.
  destruct (binary_round_aux_spec false (Zpos mz) ez loc_Exact ltac:(lia))
    as (Hcases & Hnz & Hfin).
  destruct Hcases as [Hz|[Hinf|Hfinite]]; [by destruct Hnz | | done].
  destruct Hfin; [apply Hshape | apply Hshape | done].
Qed.

(** A mantissa of 53 digits within the exponent range is kept as it
    is. *)
Lemma binary_round_aux_canonical s m e :
  Z.pos (digits2_pos m) = 53 -> -1074 <= e <= 971 ->
  binary_round_aux prec emax s (Z.pos m) e loc_Exact = S754_finite s m e.
Proof.
  intros Hd He. unfold binary_round_aux, shr_fexp. simpl Zdigits2.
  rewrite Hd, fexp_eq.
  replace (Z.max (53 + e - 53) (-1074) - e) with 0 by lia.
  cbn [shr shr_record_of_loc shr_m loc_of_shr_record round_nearest_even Zdigits2].
  rewrite Hd, fexp_eq.
  replace (Z.max (53 + e - 53) (-1074) - e) with 0 by lia.
  cbn [shr shr_record_of_loc shr_m].
  by destruct (Z.leb_spec e (emax - prec)) as [|Hgt];
    [|unfold emax, prec, F64.emax, F64.prec in Hgt; lia].
Qed.

(** The counters convert exactly: an integer up to [2^53] is a number
    of binary64. *)
Lemma of_N_exact n :
  (n <= 2 ^ 53)%N -> units (F64.of_N n) = Some (Z.of_N n * 2 ^ 1074).
Proof.
  intros Hn. destruct n as [|p]; [done|].
  destruct (decide (N.pos p = 2 ^ 53)%N) as [->|Hne]; [by vm_compute|].
  unfold F64.of_N. simpl binary_normalize. unfold binary_round.
  pose proof (digits2_bounds p) as [Hlow Hhigh].
  assert (Hd : Z.pos (digits2_pos p) <= 53).
  { assert (Hpow : 2 ^ (Z.pos (digits2_pos p) - 1) < 2 ^ 53) by lia.
    apply Z.pow_lt_mono_r_iff in Hpow; lia. }
  rewrite fexp_eq. unfold shl_align.
  destruct (Z.max (Z.pos (digits2_pos p) + 0 - 53) (-1074) - 0) as [|d|d] eqn:Hshift; [|lia|].
  - rewrite binary_round_aux_canonical by lia. simpl units. rewrite emin_eq.
    do 2 f_equal.
  - rewrite binary_round_aux_canonical by (rewrite ?iter_xO_digits; lia).
    simpl units. rewrite emin_eq, iter_xO_value, <- Z.mul_assoc, <- Z.pow_add_r by lia.
    do 3 f_equal. lia.
Qed.

Lemma of_N_is_rate n : is_rate (F64.of_N n) = true.
Proof.
  unfold F64.of_N. destruct n as [|p]; [done|]. simpl binary_normalize.
  destruct (binary_round_spec false p 0 ltac:(lia)) as [->|(m & e & -> & He)]; [done|].
  simpl. apply Z.leb_le. by rewrite emin_eq.
Qed.

Lemma is_rate_cases x :
  is_rate x = true ->
  x = S754_zero false \/ x = S754_infinity false \/
  exists m e, x = S754_finite false m e /\ -1074 <= e.
Proof.
  destruct x as [[]|[]| |[] m e]; simpl; try done; auto.
  intros He%Z.leb_le. rewrite emin_eq in He. right; right. eauto.
Qed.

Lemma binary_round_aux_is_rate m e l :
  0 <= m -> is_rate (binary_round_aux prec emax false m e l) = true.
Proof.
  intros Hm. destruct (binary_round_aux_spec false m e l Hm) as ([->|[->|(m' & e' & -> & He)]] & _);
    [done|done|].
  simpl. apply Z.leb_le. by rewrite emin_eq.
Qed.

(** A quotient by a positive finite number and a product with one are
    win rates again. *)
Lemma div_is_rate x m e :
  is_rate x = true -> is_rate (F64.div x (S754_finite false m e)) = true.
Proof.
  intros [->|[->|(mx & ex & -> & _)]]%is_rate_cases; [done|done|].
  unfold F64.div, SFdiv, SFdiv_core_binary.
  set (m' := match _ - _ with Z0 => Z.pos mx | Z.pos _ => Z.shiftl (Z.pos mx) _ | Z.neg _ => 0 end).
  assert (Hm' : 0 <= m').
  { unfold m'. destruct (_ - _); [lia| |lia]. apply Z.shiftl_nonneg. lia. }
  pose proof (Z.div_pos m' (Z.pos m) Hm' ltac:(lia)) as Hq. unfold Z.div in Hq.
  destruct (Z.div_eucl m' (Z.pos m)) as [q r]. by apply binary_round_aux_is_rate.
Qed.

Lemma mul_is_rate x m e :
  is_rate x = true -> is_rate (F64.mul x (S754_finite false m e)) = true.
Proof.
  intros [->|[->|(mx & ex & -> & _)]]%is_rate_cases; [done|done|].
  unfold F64.mul, SFmul. apply binary_round_aux_is_rate. lia.
Qed.

(** The win rate of an accumulator whose total is at most [2^53]. *)
Lemma win_rate_is_rate s :
  (Analyzer.total s <= 2 ^ 53)%N -> is_rate (Analyzer.win_rate s) = true.
Proof.
  intros Htotal. unfold Analyzer.win_rate.
  destruct (N.eqb_spec (Analyzer.total s) 0) as [|Hne]; [done|].
  destruct (of_N_finite (Analyzer.total s) ltac:(lia)) as (m & e & -> & _).
  replace Analyzer.hundred with (S754_finite false 7036874417766400 (-46)) by reflexivity.
  apply mul_is_rate, div_is_rate, of_N_is_rate.
Qed.
End Binary64.


(** ** The order of the win rates *)

Section RateOrder.
Local Open Scope Z_scope.

Lemma units_le_total a b : units_le a b \/ units_le b a.
Proof. destruct a, b; simpl; lia. Qed.

Lemma units_le_trans a b c : units_le a b -> units_le b c -> units_le a c.
Proof. destruct a, b, c; simpl; lia. Qed.

Lemma units_lt_le a b : units_lt a b -> units_le a b.
Proof. destruct a, b; simpl; lia. Qed.

Lemma units_not_lt a b : ~ units_lt a b -> units_le b a.
Proof. destruct a, b; simpl; lia. Qed.

Lemma positive_signed (r : float64) :
  (r = S754_infinity false \/ exists m e, r = S754_finite false m e) -> F64.positive r = true.
Proof. by intros [->|(m & e & ->)]. Qed.

Lemma positive_negative (r : float64) :
  (r = S754_infinity true \/ exists m e, r = S754_finite true m e) -> F64.positive r = false.
Proof. by intros [->|(m & e & ->)]. Qed.

(** The comparator's test [y - x > 0] on two win rates is [x < y] by
    value: the rounded difference has the sign of the exact one, and the
    difference of two infinities, [NaN], is not positive. *)
Lemma sub_positive x y :
  is_rate x = true -> is_rate y = true ->
  F64.positive (F64.sub y x) = true <-> units_lt (units x) (units y).
Proof.
  intros [->|[->|(mx & ex & -> & Hex)]]%is_rate_cases
         [->|[->|(my & ey & -> & Hey)]]%is_rate_cases; simpl units; try done.
  - (* a positive number against zero *)
    split; [intros _|done]. simpl. rewrite emin_eq.
    assert (0 < 2 ^ (ey - -1074)) by (apply Z.pow_pos_nonneg; lia). nia.
  - (* zero against a positive number *)
    split; [done|]. simpl. rewrite emin_eq.
    assert (0 < 2 ^ (ex - -1074)) by (apply Z.pow_pos_nonneg; lia). nia.
  - (* two positive numbers *)
    unfold F64.sub, SFsub, cond_Zopp. rewrite emin_eq.
    set (ez := Z.min ey ex).
    rewrite (shl_align_value my ey ez), (shl_align_value mx ex ez) by lia.
    assert (Hy : 2 ^ (ey - -1074) = 2 ^ (ey - ez) * 2 ^ (ez - -1074))
      by (rewrite <- Z.pow_add_r by lia; f_equal; lia).
    assert (Hx : 2 ^ (ex - -1074) = 2 ^ (ex - ez) * 2 ^ (ez - -1074))
      by (rewrite <- Z.pow_add_r by lia; f_equal; lia).
    assert (Hpos : 0 < 2 ^ (ez - -1074)) by (apply Z.pow_pos_nonneg; lia).
    simpl units_lt. rewrite Hy, Hx.
    destruct (Z.pos my * 2 ^ (ey - ez) - Z.pos mx * 2 ^ (ex - ez)) as [|d|d] eqn:Hd;
      simpl binary_normalize.
    + split; [done|]. nia.
    + rewrite positive_signed
        by (destruct (binary_round_spec false d ez ltac:(lia)) as [?|(?&?&?&?)]; eauto).
      split; [intros _|done]. nia.
    + rewrite positive_negative
        by (destruct (binary_round_spec true d ez ltac:(lia)) as [?|(?&?&?&?)]; eauto).
      split; [done|]. nia.
Qed.
End RateOrder.

(** ** Sorting *)

Section Sort.
Context {A : Type}.
Variable cmp : A -> A -> float64.
Variable key : A -> option Z.
Variable ok : A -> Prop.

(** On the elements sorted, the comparator orders by the key. *)
Hypothesis cmp_key :
  forall x y, ok x -> ok y ->
    F64.positive (cmp x y) = true <-> units_lt (key x) (key y).

Local Abbreviation descending := (fun a b : A => units_le (key b) (key a)).

Lemma sort_insert_perm x l : Analyzer.sort_insert cmp x l ≡ₚ x :: l.
Proof.
  induction l as [|y l IH]; simpl; [done|].
  destruct (F64.positive _); [|done]. rewrite IH. apply perm_swap.
Qed.

(** The sort keeps the elements. *)
Lemma sort_perm l : Analyzer.sort cmp l ≡ₚ l.
Proof.
  induction l as [|x l IH]; simpl; [done|].
  by rewrite sort_insert_perm, IH.
Qed.

Lemma sort_insert_sorted x l :
  ok x -> Forall ok l ->
  StronglySorted descending l ->
  StronglySorted descending (Analyzer.sort_insert cmp x l).
Proof.
  intros Hx Hl Hsorted. induction Hsorted as [|y l Hsorted IH Hy]; simpl.
  - by repeat constructor.
  - inversion_clear Hl as [|? ? Hoky Hokl].
    destruct (F64.positive (cmp x y)) eqn:Hcmp.
    + constructor; [by apply IH|].
      rewrite sort_insert_perm. constructor; [|done].
      by apply units_lt_le, cmp_key.
    + assert (Hle : units_le (key y) (key x)).
      { apply units_not_lt. intros Hlt%cmp_key; [congruence|done|done]. }
      constructor; [by constructor|].
      constructor; [done|].
      eapply Forall_impl; [exact Hy|]. intros z Hz. simpl in *.
      by eapply units_le_trans.
Qed.

(** The sort is stable: the elements of one key keep their order. *)
Lemma sort_insert_stable (u : option Z) x l :
  ok x -> Forall ok l ->
  filter (fun a => key a = u) (Analyzer.sort_insert cmp x l)
  = filter (fun a => key a = u) (x :: l).
Proof.
  intros Hx Hl. induction Hl as [|y l Hy Hl IH]; cbn [Analyzer.sort_insert]; [done|].
  destruct (F64.positive (cmp x y)) eqn:Hcmp; [|done].
  apply cmp_key in Hcmp; [|done|done].
  rewrite (filter_cons _ y), IH, !(filter_cons _ x), (filter_cons _ y).
  destruct (decide (key x = u)) as [Hxu|]; [|done].
  destruct (decide (key y = u)) as [Hyu|]; [exfalso|done].
  rewrite Hxu, Hyu in Hcmp. destruct u; simpl in Hcmp; [lia|done].
Qed.

Lemma sort_stable (u : option Z) l :
  Forall ok l ->
  filter (fun a => key a = u) (Analyzer.sort cmp l) = filter (fun a => key a = u) l.
Proof.
  induction 1 as [|x l Hx Hl IH]; [done|].
  cbn [Analyzer.sort foldr]. fold (Analyzer.sort cmp l).
  rewrite sort_insert_stable by (done || by rewrite sort_perm).
  by rewrite !(filter_cons _ x), IH.
Qed.

(** The sort puts the keys in non-increasing order. *)
Lemma sort_sorted l :
  Forall ok l -> StronglySorted descending (Analyzer.sort cmp l).
Proof.
  induction 1 as [|x l Hx Hl IH]; simpl; [constructor|].
  apply sort_insert_sorted; [done| |done].
  by rewrite sort_perm.
Qed.
End Sort.


(** ** The ten best openings of a color *)

Section Top.
Context {strcase : StringCase} {numfmt : NumberFormat}.

Lemma incr_bounded n : (n <= 2 ^ 53)%N -> (Analyzer.incr n <= 2 ^ 53)%N.
Proof. intros Hn. unfold Analyzer.incr. destruct (N.ltb_spec n (2 ^ 53)); lia. Qed.

(** No total goes beyond [2^53], however many the games. *)
Lemma openingStats_bounded handle games c k s :
  JS.get k (Analyzer.table c (Analyzer.openingStats handle games)) = Some s ->
  (Analyzer.total s <= 2 ^ 53)%N.
Proof.
  revert c k s. induction games as [|g games IH] using rev_ind; intros c k s.
  - by destruct c.
  - rewrite openingStats_snoc.
    destruct (opening g) as [| |data] eqn:Hopen.
    1,2: rewrite record_game_skip by (by rewrite Hopen); apply IH.
    rewrite (record_game_get _ _ _ data) by done.
    destruct (decide _) as [[-> ->]|_]; [|apply IH].
    intros [= <-].
    assert (Hprev : (Analyzer.total (default Analyzer.initialStats
               (JS.get (Analyzer.name_key data)
                  (Analyzer.table (Analyzer.playerColor handle (game g))
                     (Analyzer.openingStats handle games)))) <= 2 ^ 53)%N).
    { destruct (JS.get _ _) as [s0|] eqn:Hget; simpl; [by eapply IH|lia]. }
    destruct (Analyzer.gameResult handle (game g)); simpl; by apply incr_bounded.
Qed.

Lemma compareFn_key (x y : Analyzer.Ranked) :
  is_rate (Analyzer.winRate x) = true -> is_rate (Analyzer.winRate y) = true ->
  F64.positive (Analyzer.compareFn x y) = true
  <-> units_lt (units (Analyzer.winRate x)) (units (Analyzer.winRate y)).
Proof. apply sub_positive. Qed.

(** The entries of [sortOpenings]: the accumulators of the table whose
    total is above 15, each with its win rate. *)
Lemma sortOpenings_elem (tbl : JS.obj Analyzer.Stats) o :
  NoDup tbl.*1 ->
  o ∈ Analyzer.sortOpenings tbl ->
  (15 < Analyzer.total (Analyzer.stats o))%N /\
  JS.get (Analyzer.openingName o) tbl = Some (Analyzer.stats o) /\
  Analyzer.winRate o = Analyzer.win_rate (Analyzer.stats o).
Proof.
  intros Hnd. unfold Analyzer.sortOpenings. rewrite sort_perm.
  intros [Htotal Hin]%list_elem_of_filter.
  apply list_elem_of_fmap in Hin as ([k s] & -> & Hin). simpl in *.
  split_and!; [done| |done].
  apply elem_get_Some; [done|]. by rewrite <- (entries_perm tbl).
Qed.

(** C2. The entries a color's list is written from: at most ten; each
    an accumulator of that color with a total above 15 and with its win
    rate, [wins / total * 100] in binary64; and in non-increasing order
    of the win rates, by value. The list itself has one line for each,
    in this order. *)
Theorem top_ten_sorted (handle : string) (games : list GameWithOpening)
    (c : Analyzer.Color) :
  let tbl := Analyzer.table c (Analyzer.openingStats handle games) in
  let entries := Analyzer.top c handle games in
  (length entries <= 10)%nat /\
  Forall (fun o => (15 < Analyzer.total (Analyzer.stats o))%N /\
                   JS.get (Analyzer.openingName o) tbl = Some (Analyzer.stats o) /\
                   Analyzer.winRate o = Analyzer.win_rate (Analyzer.stats o)) entries /\
  StronglySorted (fun a b => rate_le (Analyzer.winRate b) (Analyzer.winRate a)) entries /\
  Analyzer.analyzeGames handle games
    = (Analyzer.describe <$> Analyzer.top Analyzer.White handle games,
       Analyzer.describe <$> Analyzer.top Analyzer.Black handle games).
Proof.
  intros tbl entries.
  assert (Helem : Forall (fun o =>
            (15 < Analyzer.total (Analyzer.stats o))%N /\
            JS.get (Analyzer.openingName o) tbl = Some (Analyzer.stats o) /\
            Analyzer.winRate o = Analyzer.win_rate (Analyzer.stats o))
            (Analyzer.sortOpenings tbl)).
  { apply Forall_forall. intros o Ho.
    apply sortOpenings_elem; [apply openingStats_NoDup|done]. }
  split_and!.
  - unfold entries, Analyzer.top, JS.slice_to. rewrite length_take. lia.
  - by apply Forall_take.
  - unfold entries, Analyzer.top, JS.slice_to.
    apply (StronglySorted_app_1_l _ _ (drop 10 (Analyzer.sortOpenings tbl))).
    rewrite take_drop. unfold Analyzer.sortOpenings.
    apply (sort_sorted Analyzer.compareFn (fun o => units (Analyzer.winRate o))
             (fun o => is_rate (Analyzer.winRate o) = true) compareFn_key).
    apply Forall_forall. intros o [_ Hin]%list_elem_of_filter.
    apply list_elem_of_fmap in Hin as ([k s] & -> & Hin). simpl.
    apply win_rate_is_rate.
    apply (openingStats_bounded handle games c k).
    apply elem_get_Some; [apply openingStats_NoDup|].
    by rewrite <- (entries_perm (Analyzer.table c _)).
  - reflexivity.
Qed.
End Top.

(** Four openings of more than 15 games and one of 15: the entries come
    out by win rate, the two rates of 50 in the order of the table. *)
Example sortOpenings_by_rate :
  let stats t w := {| Analyzer.total := t; Analyzer.wins := w;
                      Analyzer.losses := t - w; Analyzer.draws := 0 |} in
  Analyzer.openingName <$>
    Analyzer.sortOpenings [("Italian Game", stats 16 8); ("Sicilian Defense", stats 20 15);
                           ("French Defense", stats 15 15); ("Caro-Kann Defense", stats 32 16);
                           ("Scotch Game", stats 32 32)]%N
  = ["Scotch Game"; "Sicilian Defense"; "Italian Game"; "Caro-Kann Defense"].
Proof. vm_compute. reflexivity. Qed.


(** * Further properties *)

(** ** The rows of the builder *)

Section BuilderRowsMore.
Context {engine : ChessEngine}.

Lemma processRow_rejected row :
  loadPgn (JS.split "009" row !! 2%nat) = None <-> Builder.processRow row = inl EngineError.
Proof.
  unfold Builder.processRow. cbv zeta. by destruct (loadPgn _).
Qed.

Lemma processRows_fails {S} (rows : list string) (handler : OpeningData -> S -> S)
    (st : S) :
  (exists row, row ∈ rows /\ loadPgn (JS.split "009" row !! 2%nat) = None)
  <-> Builder.processRows rows handler st = inl EngineError.
Proof.
  revert st. induction rows as [|row rows IH]; intros st; simpl.
  - split; [by intros (row & ?%elem_of_nil & _) | done].
  - destruct (Builder.processRow row) as [e|r] eqn:Hrow.
    + assert (e = EngineError) as ->
        by (unfold Builder.processRow in Hrow; cbv zeta in Hrow;
            by destruct (loadPgn _); simplify_eq).
      split; [done|]. intros _. exists row. split; [left|].
      by apply processRow_rejected.
    + rewrite <- IH. split.
      * intros (row' & [->|Hin]%elem_of_cons & Hbad); [|by exists row'].
        apply processRow_rejected in Hbad. congruence.
      * intros (row' & Hin & Hbad). exists row'. split; [by right|done].
Qed.

(** X1. [processRows] fails exactly when the engine rejects the move
    text of some row (the third tab-separated field, [undefined] on a
    shorter row), always with the engine's exception, whatever the
    handler did before; otherwise it returns a state. *)
Theorem processRows_rejects {S} (rows : list string) (handler : OpeningData -> S -> S)
    (st : S) :
  ((exists row, row ∈ rows /\ loadPgn (JS.split "009" row !! 2%nat) = None)
   <-> Builder.processRows rows handler st = inl EngineError) /\
  (forall e, Builder.processRows rows handler st = inl e -> e = EngineError).
Proof.
  split; [apply processRows_fails|].
  revert st. induction rows as [|row rows IH]; intros st e; simpl; [done|].
  destruct (Builder.processRow row) as [e'|r] eqn:Hrow; [|apply IH].
  intros [= <-]. unfold Builder.processRow in Hrow. cbv zeta in Hrow.
  by destruct (loadPgn _); simplify_eq.
Qed.

Lemma string_length_app (s1 s2 : string) :
  String.length (s1 +:+ s2) = (String.length s1 + String.length s2)%nat.
Proof. induction s1 as [|c s1 IH]; simpl; [done|]. by rewrite IH. Qed.

Lemma moveUci_length move :
  plain_move move ->
  String.length (Builder.moveUci move) = (4 + if promotes move then 1 else 0)%nat.
Proof.
  intros (Hfrom & Hto & Hprom). unfold Builder.moveUci, promotes. cbv zeta.
  destruct (promotion move) as [p|] eqn:Hp.
  - specialize (Hprom p eq_refl).
    destruct p as [|c p]; simpl JS.truthy_str; cbv iota;
      rewrite ?string_length_app, Hfrom, Hto; [done|].
    destruct p; simpl in *; lia.
  - by rewrite string_length_app, Hfrom, Hto.
Qed.

Lemma uci_fold_length moves acc :
  Forall plain_move moves ->
  String.length (foldl (fun uci move => uci +:+ Builder.moveUci move) acc moves)
  = (String.length acc + 4 * length moves + length (filter (fun m => promotes m = true) moves))%nat.
Proof.
  intros Hmoves. revert acc. induction Hmoves as [|m moves Hm _ IH]; intros acc; simpl.
  - lia.
  - rewrite IH, string_length_app, moveUci_length by done.
    rewrite filter_cons. destruct (promotes m); simpl; lia.
Qed.

(** X2. The move code of a record has four characters for each move of
    the engine's history and one more for each promotion. *)
Theorem uci_length row r chess :
  Builder.processRow row = inr r ->
  loadPgn (JS.split "009" row !! 2%nat) = Some chess ->
  Forall plain_move (history chess) ->
  String.length (uci r)
  = (4 * length (history chess)
     + length (filter (fun m => promotes m = true) (history chess)))%nat.
Proof.
  unfold Builder.processRow. cbv zeta. intros Hrow Hload Hmoves.
  rewrite Hload in Hrow. injection Hrow as <-. simpl uci.
  by rewrite uci_fold_length.
Qed.
End BuilderRowsMore.

Lemma processRows_rejects_witness :
  Builder.processRows (engine := Demo.engine)
    ["B00" +:+ Demo.tab +:+ "King's Pawn" +:+ Demo.tab +:+ "1. e4"; "B00"]
    (fun r (n : nat) => S n) 0%nat = inl EngineError.
Proof.
  apply (processRows_rejects (engine := Demo.engine)).
  exists "B00". split; [set_solver|reflexivity].
Defined.

Lemma uci_length_witness :
  String.length (uci Demo.open_game) = (4 * 2 + 0)%nat.
Proof.
  exact (uci_length (engine := Demo.engine)
           ("C20" +:+ Demo.tab +:+ "King's Pawn Game" +:+ Demo.tab +:+ "1. e4 e5")
           Demo.open_game _ eq_refl eq_refl
           ltac:(repeat constructor; simpl; (done || lia))).
Defined.

(** ** Position codes *)

Section PositionCodes.
(** X3. The position code of a position string of at least four
    space-separated fields is its first four fields joined by spaces,
    whatever comes after them (the move counters). *)
Theorem epd_of_fields (fields rest : list string) :
  length fields = 4%nat ->
  Forall (fun w => JS.occurs " " w = false) (fields ++ rest) ->
  epd_of (JS.join " " (fields ++ rest)) = JS.join " " fields.
Proof.
  intros Hlen Hfree. unfold epd_of, JS.slice_to.
  rewrite split_join; [|by destruct fields|done].
  by rewrite take_app_length' by done.
Qed.

(** X4. Taking the position code of a position code changes nothing. *)
Theorem epd_of_idempotent (position : string) :
  epd_of (epd_of position) = epd_of position.
Proof.
  unfold epd_of at 1. rewrite epd_fields. unfold JS.slice_to.
  by rewrite take_take, Nat.min_id.
Qed.
End PositionCodes.

Lemma epd_of_fields_witness :
  epd_of (after Demo.e4) = "rnbqkbnr/pppppppp/8/8/4P3/8/PPPPPPPP/RNBQKBNR b KQkq -".
Proof.
  exact (epd_of_fields ["rnbqkbnr/pppppppp/8/8/4P3/8/PPPPPPPP/RNBQKBNR"; "b"; "KQkq"; "-"]
           ["0"; "1"] eq_refl ltac:(repeat constructor)).
Defined.

(** ** The tables of the builder *)

Section Grouping.
Context {V : Type}.
Implicit Types (o : JS.obj (list V)) (k : string) (v : V).

Lemma get_push_at k v o k' :
  JS.get k' (Builder.push_at k v o)
  = if decide (k = k') then Some (default [] (JS.get k o) ++ [v]) else JS.get k' o.
Proof.
  unfold Builder.push_at. destruct (JS.get k o) eqn:Hget; rewrite get_set;
    by destruct (decide (k = k')).
Qed.

Lemma set_fresh {W} k (w : W) (o : JS.obj W) :
  JS.get k o = None -> JS.set k w o = o ++ [(k, w)].
Proof.
  induction o as [|[k0 w0] o IH]; simpl; [done|].
  destruct (decide (k0 = k)); [done|]. intros Hget. by rewrite IH.
Qed.

Lemma set_concat k (old new : list V) o :
  JS.get k o = Some old ->
  concat (JS.set k (old ++ new) o).*2 ≡ₚ concat o.*2 ++ new.
Proof.
  induction o as [|[k0 w0] o IH]; simpl; [done|].
  destruct (decide (k0 = k)) as [->|].
  - intros [= ->]. simpl. rewrite <- !app_assoc. f_equiv. apply Permutation_app_comm.
  - intros Hget. simpl. by rewrite IH, app_assoc.
Qed.

Lemma push_at_concat k v o :
  concat (Builder.push_at k v o).*2 ≡ₚ concat o.*2 ++ [v].
Proof.
  unfold Builder.push_at. destruct (JS.get k o) as [old|] eqn:Hget.
  - by apply set_concat.
  - rewrite set_fresh by done. rewrite fmap_app, concat_app.
    by f_equiv.
Qed.

(** A table filled by [push_at] under the key [f r] of each element. *)
Lemma group_get (f : V -> string) (rs : list V) k :
  JS.get k (foldl (fun o r => Builder.push_at (f r) r o) [] rs)
  = match filter (fun r => f r = k) rs with [] => None | l => Some l end.
Proof.
  induction rs as [|r rs IH] using rev_ind; [done|].
  rewrite foldl_app, filter_app. cbn [foldl]. rewrite get_push_at.
  destruct (decide (f r = k)) as [<-|Hne].
  - rewrite filter_cons_True, filter_nil by done. rewrite IH.
    destruct (filter _ rs); simpl; [done|]. by rewrite app_comm_cons.
  - rewrite filter_cons_False, filter_nil, app_nil_r by done. apply IH.
Qed.

Lemma group_concat (f : V -> string) (rs : list V) :
  concat (foldl (fun o r => Builder.push_at (f r) r o) [] rs).*2 ≡ₚ rs.
Proof.
  induction rs as [|r rs IH] using rev_ind; [done|].
  rewrite foldl_app. cbn [foldl]. by rewrite push_at_concat, IH.
Qed.

Lemma group_fst (f : V -> string) (rs : list V) :
  (foldl (fun o r => Builder.push_at (f r) r o) [] rs).*1 = first_occurrences (f <$> rs).
Proof.
  unfold first_occurrences.
  induction rs as [|r rs IH] using rev_ind; [done|].
  rewrite fmap_app, !foldl_app. cbn [foldl fmap list_fmap]. rewrite <- IH.
  set (o := foldl _ [] rs). unfold Builder.push_at.
  destruct (decide (f r ∈ o.*1)) as [Hin|Hnin].
  - destruct (JS.get (f r) o); by rewrite set_fst_elem.
  - destruct (JS.get (f r) o); by rewrite set_fst_fresh.
Qed.
End Grouping.

Section Entries.
Context {V : Type}.

(** Without a key that is an array index, [Object.entries] follows the
    order of creation. *)
Lemma entries_named (o : JS.obj V) :
  Forall (fun k => JS.array_index k = None) o.*1 -> JS.entries o = o.
Proof.
  unfold JS.entries. induction o as [|[k v] o IH]; [done|].
  intros [Hk Ho]%Forall_cons. simpl in *. rewrite Hk.
  specialize (IH Ho).
  destruct (JS.index_entries o) as [|e es] eqn:He.
  - simpl in *. by rewrite IH.
  - exfalso. clear -He Ho. induction o as [|[k' v'] o IH']; [done|].
    apply Forall_cons in Ho as [Hk' Ho]. simpl in *. rewrite Hk' in He. auto.
Qed.
End Entries.

Section BuilderTablesMore.
Context {strcase : StringCase}.

Lemma build_tables rs :
  Builder.ecoLookup (Builder.build rs)
    = foldl (fun o r => Builder.push_at (eco r) r o) [] rs /\
  Builder.categoryLookup (Builder.build rs)
    = foldl (fun o r => Builder.push_at (toUpperCase (JS.charAt0 (eco r))) r o) [] rs /\
  Builder.openingList (Builder.build rs) = rs.
Proof.
  induction rs as [|r rs (IH1 & IH2 & IH3)] using rev_ind; [done|].
  rewrite build_snoc, !foldl_app. simpl. by rewrite IH1, IH2, IH3.
Qed.

(** X5. The ECO table maps an ECO code to the records of that code, in
    input order, and has no key for a code without a record; the
    category table does the same with the upper-cased first character
    of the code; and the flat list is the input. *)
Theorem lookups_group (rs : list OpeningData) (k : string) :
  let st := Builder.build rs in
  JS.get k (Builder.ecoLookup st)
    = match filter (fun r => eco r = k) rs with [] => None | l => Some l end /\
  JS.get k (Builder.categoryLookup st)
    = match filter (fun r => toUpperCase (JS.charAt0 (eco r)) = k) rs with
      | [] => None
      | l => Some l
      end /\
  Builder.openingList st = rs.
Proof.
  cbv zeta. destruct (build_tables rs) as (-> & -> & ->).
  split_and!; [apply group_get|apply group_get|done].
Qed.

(** X6. No record is lost or repeated by the grouping: the lists of the
    ECO table together, and those of the category table, hold the
    records of the input, each as often as the input does. *)
Theorem lookups_partition (rs : list OpeningData) :
  concat (Builder.ecoLookup (Builder.build rs)).*2 ≡ₚ rs /\
  concat (Builder.categoryLookup (Builder.build rs)).*2 ≡ₚ rs.
Proof.
  destruct (build_tables rs) as (-> & -> & _). split; apply group_concat.
Qed.

(** X7. When no ECO code is an array index (a code starts with a
    letter), the fifth file lists the ECO codes in the order of their
    first records. *)
Theorem eco_list_order (rs : list OpeningData) :
  Forall (fun r => JS.array_index (eco r) = None) rs ->
  Builder.files (Builder.build rs) !! 4%nat
  = Some ("eco-list.json", Builder.KeyArray (first_occurrences (eco <$> rs))).
Proof.
  intros Hcodes. simpl. do 3 f_equal. unfold JS.keys.
  rewrite entries_named.
  - destruct (build_tables rs) as (-> & _). apply group_fst.
  - apply Forall_forall. intros k Hk.
    apply ecoLookup_fst in Hk as (r & Hr & <-).
    by apply (proj1 (Forall_forall _ _) Hcodes).
Qed.
End BuilderTablesMore.

Lemma eco_list_order_witness :
  Builder.files (Builder.build (strcase := Demo.ascii_case)
                   [Demo.open_game; Demo.kings_pawn; Demo.kings_pawn']) !! 4%nat
  = Some ("eco-list.json", Builder.KeyArray ["C20"; "B00"]).
Proof.
  exact (eco_list_order (strcase := Demo.ascii_case)
           [Demo.open_game; Demo.kings_pawn; Demo.kings_pawn']
           ltac:(repeat constructor)).
Defined.

Section BuilderMain.
Context {net : Network} {engine : ChessEngine} {strcase : StringCase}.

(** X8. When [fetchOpenings] returns rows, it returns the same rows in
    every order in which the five responses arrive, and none of them is
    empty. *)
Theorem fetchOpenings_order_free (sched : list nat) (rows : list string) :
  Builder.fetchOpenings sched = inr rows ->
  (forall sched', Builder.fetchOpenings sched' = inr rows) /\
  Forall (fun row => row <> "") rows.
Proof.
  unfold Builder.fetchOpenings.
  destruct (promise_all sched _) as [e|lines] eqn:Hall; [done|]. intros [= <-]. split.
  - intros sched'. by rewrite (promise_all_order_free sched sched' _ lines).
  - apply Forall_forall. intros row [Hrow _]%list_elem_of_filter. by destruct row.
Qed.

(** X9. On fetched rows, [main] either hands the five files of the
    tables of all the records, in row order, to the writer, or, when
    the engine rejects the move text of a row, ends on the engine's
    exception with nothing to write. *)
Theorem main_outcome (sched : list nat) (rows : list string) :
  Builder.fetchOpenings sched = inr rows ->
  (forall rs,
      mapM (fun row => fulfilled (Builder.processRow row)) rows = Some rs ->
      Builder.main sched = inr (Builder.files (Builder.build rs)) /\
      length rs = length rows /\
      (Builder.files (Builder.build rs)).*1
      = ["opening-list.json"; "eco-lookup.json"; "category-lookup.json";
         "epd-lookup.json"; "eco-list.json"]) /\
  ((exists row, row ∈ rows /\ loadPgn (JS.split "009" row !! 2%nat) = None) ->
   Builder.main sched = inl EngineError).
Proof.
  intros Hrows. unfold Builder.main. rewrite Hrows. split.
  - intros rs Hrs. rewrite (processRows_records rows rs) by done.
    split_and!; [done| |done]. symmetry. by eapply length_mapM.
  - intros Hbad.
    by apply (processRows_fails rows Builder.handler Builder.empty_lookups) in Hbad as ->.
Qed.
End BuilderMain.

Lemma fetchOpenings_order_free_witness :
  Builder.fetchOpenings (net := Demo.network "none") [0; 1; 2; 3; 4]%nat
  = inr ["B00" +:+ Demo.tab +:+ "King's Pawn" +:+ Demo.tab +:+ "1. e4"].
Proof.
  exact (proj1 (fetchOpenings_order_free (net := Demo.network "none") [4; 2; 0]%nat _ eq_refl)
           [0; 1; 2; 3; 4]%nat).
Defined.

Lemma main_outcome_witness :
  Builder.main (net := Demo.network "none") (engine := Demo.engine)
    (strcase := Demo.ascii_case) []
  = inr (Builder.files (Builder.build (strcase := Demo.ascii_case) [Demo.kings_pawn])).
Proof.
  exact (proj1 (proj1 (main_outcome (net := Demo.network "none") (engine := Demo.engine)
                         (strcase := Demo.ascii_case) [] _ eq_refl)
                  [Demo.kings_pawn] eq_refl)).
Defined.

(** ** From the builder to the analyzer *)

Section RoundTrip.
Context {engine : ChessEngine} {strcase : StringCase}.

Lemma build_epdLookup (rs : list OpeningData) (code : string) :
  Builder.epdLookup (Builder.build rs) !! code
  = last (filter (fun r => epd r = code) rs).
Proof.
  induction rs as [|r rs IH] using rev_ind; [done|].
  rewrite build_snoc, filter_app. cbn [Builder.handler Builder.epdLookup].
  destruct (decide (epd r = code)) as [<-|Hne].
  - rewrite lookup_insert_eq, filter_cons_True, filter_nil by done.
    by rewrite last_snoc.
  - rewrite lookup_insert_ne, filter_cons_False, filter_nil by done.
    by rewrite app_nil_r.
Qed.

(** X10. A move text of the catalogue is identified. When a row whose
    move text is [moveText] gave the record [r] of the catalogue [rs],
    and the position string after the last move of the replay is the
    final position string of the engine, the game [moveText] is
    identified, against the index built from [rs], as the last record
    of [rs] that has the position code of [r]. *)
Theorem catalogue_identified (rs : list OpeningData) (row moveText : string)
    (r : OpeningData) (chess : Chess) (move : Move) :
  Builder.processRow row = inr r ->
  pgn r = Some moveText ->
  moveText <> "" ->
  r ∈ rs ->
  loadPgn (Some moveText) = Some chess ->
  last (history chess) = Some move ->
  after move = fen chess ->
  exists data,
    Analyzer.identifyOpening (Builder.epdLookup (Builder.build rs)) moveText
      = ([Replayed moveText], inr (Found data)) /\
    last (filter (fun r' => epd r' = epd r) rs) = Some data /\
    epd data = epd r /\ data ∈ rs.
Proof.
  intros Hrow Hpgn Hne Hin Hload Hlast Hafter.
  assert (Hepd : epd r = epd_of (fen chess)).
  { unfold Builder.processRow in Hrow. cbv zeta in Hrow.
    destruct (loadPgn (JS.split "009" row !! 2%nat)) as [chess'|] eqn:Hload'; [|done].
    injection Hrow as <-. simpl in *. rewrite Hpgn in Hload'. congruence. }
  destruct (last (filter (fun r' => epd r' = epd r) rs)) as [data|] eqn:Hdata.
  - exists data.
    assert (Hdata_in : data ∈ filter (fun r' => epd r' = epd r) rs).
    { apply last_Some in Hdata as [l ->]. apply elem_of_app. right. left. }
    apply list_elem_of_filter in Hdata_in as [Hcode Hdata_in].
    split_and!; [|done|done|done].
    apply last_Some in Hlast as [shallower Hhist].
    unfold Analyzer.identifyOpening.
    destruct moveText as [|c s]; [done|]. simpl. rewrite Hload. simpl.
    rewrite Hhist, rev_app_distr. simpl. do 2 f_equal.
    apply (scan_first_hit _ Null [] move (rev shallower) data); [done|constructor|].
    rewrite build_epdLookup, Hafter, <- Hepd. exact Hdata.
  - exfalso. apply last_None in Hdata.
    assert (r ∈ filter (fun r' => epd r' = epd r) rs) as Hr
      by (by apply list_elem_of_filter).
    rewrite Hdata in Hr. by apply elem_of_nil in Hr.
Qed.
End RoundTrip.

Lemma catalogue_identified_witness :
  exists data,
    Analyzer.identifyOpening (engine := Demo.engine)
      (Builder.epdLookup (Builder.build (strcase := Demo.ascii_case)
                            [Demo.kings_pawn; Demo.open_game; Demo.kings_pawn']))
      "1. e4"
    = ([Replayed "1. e4"], inr (Found data)) /\
    last (filter (fun r' => epd r' = epd Demo.kings_pawn)
            [Demo.kings_pawn; Demo.open_game; Demo.kings_pawn']) = Some data /\
    epd data = epd Demo.kings_pawn /\
    data ∈ [Demo.kings_pawn; Demo.open_game; Demo.kings_pawn'].
Proof.
  apply (catalogue_identified (engine := Demo.engine) (strcase := Demo.ascii_case) _
           ("B00" +:+ Demo.tab +:+ "King's Pawn" +:+ Demo.tab +:+ "1. e4") "1. e4"
           Demo.kings_pawn {| history := [Demo.e4]; fen := after Demo.e4 |} Demo.e4);
    try reflexivity; [discriminate|set_solver].
Defined.


(** ** Identifying, in full *)

Section IdentifyMore.
Context {engine : ChessEngine}.
Variable epdLookup : gmap string OpeningData.

Lemma scan_sound r stack data :
  Analyzer.scan epdLookup r stack = Found data ->
  r = Found data \/
  exists move, move ∈ stack /\ epdLookup !! epd_of (after move) = Some data.
Proof.
  revert r. induction stack as [|m stack IH]; intros r; simpl.
  - destruct (matched r); auto.
  - destruct (matched r) eqn:Hr; [auto|]. intros [Hprobe|(move & Hin & Hhit)]%IH.
    + right. exists m. split; [left|]. unfold Analyzer.probe in Hprobe.
      destruct (epdLookup !! _); congruence.
    + right. exists move. split; [by right|done].
Qed.

Lemma scan_unmatched r stack :
  matched (Analyzer.scan epdLookup r stack) = false ->
  Forall (fun move => epdLookup !! epd_of (after move) = None) stack.
Proof.
  revert r. induction stack as [|m stack IH]; intros r; simpl; [constructor|].
  destruct (matched r) eqn:Hr; [congruence|]. intros Hscan. constructor.
  - destruct (epdLookup !! epd_of (after m)) as [data|] eqn:Hm; [|done].
    unfold Analyzer.probe in Hscan. rewrite Hm in Hscan.
    by rewrite scan_matched in Hscan.
  - by eapply IH.
Qed.

(** X11. What [identifyOpening] returns: a record only when it is the
    index's record for the code of a position of the replayed game; no
    match, on a move text that is replayed, only when no position of
    the game has a code of the index; and an exception only when the
    engine rejects a non-empty move text. *)
Theorem identifyOpening_outcomes (moveText : string) :
  (forall data,
      Eff.outcome (Analyzer.identifyOpening epdLookup moveText) = inr (Found data) ->
      exists chess move,
        moveText <> "" /\ loadPgn (Some moveText) = Some chess /\
        move ∈ history chess /\ epdLookup !! epd_of (after move) = Some data) /\
  (forall o chess,
      Eff.outcome (Analyzer.identifyOpening epdLookup moveText) = inr o ->
      matched o = false -> moveText <> "" -> loadPgn (Some moveText) = Some chess ->
      Forall (fun move => epdLookup !! epd_of (after move) = None) (history chess)) /\
  (forall e,
      Eff.outcome (Analyzer.identifyOpening epdLookup moveText) = inl e ->
      e = EngineError /\ moveText <> "" /\ loadPgn (Some moveText) = None).
Proof.
  unfold Analyzer.identifyOpening.
  destruct moveText as [|c s]; simpl; [by split_and!|].
  destruct (loadPgn _) as [chess|] eqn:Hload; simpl; split_and!; try done.
  - intros data [= Hscan]. apply scan_sound in Hscan as [|(move & Hin & Hhit)]; [done|].
    exists chess, move. split_and!; [done|done| |done].
    apply list_elem_of_In, in_rev. by apply list_elem_of_In.
  - intros o chess' [= <-] Hmiss _ [= <-].
    apply scan_unmatched, Forall_rev in Hmiss. by rewrite rev_involutive in Hmiss.
  - by intros e [= <-].
Qed.
End IdentifyMore.

(** ** Fetching the games, in full *)

Section FetchGamesMore.
Context {engine : ChessEngine} {net : Network} {parser : JsonParser}.
Variable epdLookup : gmap string OpeningData.

(** X12. When the archive list cannot be had, [fetchGames] throws after
    its single request: the failure of the request, of the JSON parser
    or of the schema; and on an empty list it returns no game, again
    after that single request. *)
Theorem fetchGames_list_failure (sched : list nat) (handle : string) :
  let url := Analyzer.archives_url handle in
  let run := Analyzer.fetchGames epdLookup sched handle in
  (fetch url = None -> run = ([Fetched url], inl (FetchError url))) /\
  (forall res, fetch url = Some res -> json_parse (body res) = None ->
               run = ([Fetched url], inl SyntaxError)) /\
  (forall res j, fetch url = Some res -> json_parse (body res) = Some j ->
                 archiveSchema (Some j) = None ->
                 run = ([Fetched url], inl ZodError)) /\
  (forall res j, fetch url = Some res -> json_parse (body res) = Some j ->
                 archiveSchema (Some j) = Some [] ->
                 run = ([Fetched url], inr [])).
Proof.
  cbv zeta. rewrite fetchGames_unfold. cbv zeta. split_and!.
  - by intros ->.
  - by intros res -> ->.
  - by intros res j -> -> ->.
  - intros res j -> -> ->. cbn [JS.slice_from length map].
    assert (Hevents : forall order,
               Analyzer.settled_events (A := list GameWithOpening) [] order = [])
      by (intros order; induction order; done).
    assert (Hfirst : forall order, first_rejection (A := list GameWithOpening) [] order = None)
      by (intros order; induction order; done).
    simpl. unfold promise_all. by rewrite Hevents, Hfirst.
Qed.

(** X13. When every one of the last six archives gives its page,
    [fetchGames] returns the pages one after the other, in list order,
    in whatever order the archives settle. What follows the order of
    arrival is the replays: after the requests, all made in list order,
    the games are replayed page by page in the order in which the
    archives settle. *)
Theorem fetchGames_games (handle : string) (res : Response) (j : json)
    (archives : list string) (pages : list (list GameWithOpening)) :
  fetch (Analyzer.archives_url handle) = Some res ->
  json_parse (body res) = Some j ->
  archiveSchema (Some j) = Some archives ->
  let recent := JS.slice_from (-6) archives in
  Forall2 (archive_page epdLookup) recent pages ->
  forall order,
    Eff.outcome (Analyzer.fetchGames epdLookup order handle) = inr (concat pages) /\
    (order ≡ₚ seq 0 (length recent) ->
     Eff.events (Analyzer.fetchGames epdLookup order handle)
     = Fetched (Analyzer.archives_url handle) :: (Fetched <$> recent)
       ++ concat ((fun i => replays (default [] (pages !! i))) <$> order)).
Proof.
  intros Hfetch Hjson Hschema recent Hpages order. split.
  - rewrite (fetchGames_outcome epdLookup order handle res j archives) by done.
    fold recent. apply archiveGames_pages in Hpages.
    by rewrite Hpages, promise_all_fulfills.
  - intros Horder. rewrite fetchGames_unfold. cbv zeta. rewrite Hfetch, Hjson, Hschema.
    fold recent. cbn [Eff.events fst]. do 2 f_equal.
    rewrite length_fmap, (settle_order_complete order) by done.
    by apply settled_events_pages.
Qed.

(** X14. One archive that fails makes [fetchGames] fail, with the
    exception of the first failing archive to settle: when the archives
    that settle first give their pages and the next to settle throws
    [e], [fetchGames] throws [e], whatever the other archives do and
    whenever they settle, and no game is returned, those of the pages
    that were there included. *)
Theorem fetchGames_all_or_nothing (handle : string) (res : Response) (j : json)
    (archives : list string) (before later : list nat) (i : nat)
    (archive : string) (e : error) :
  fetch (Analyzer.archives_url handle) = Some res ->
  json_parse (body res) = Some j ->
  archiveSchema (Some j) = Some archives ->
  let recent := JS.slice_from (-6) archives in
  Forall (fun i' => forall a, recent !! i' = Some a ->
                              exists page, archive_page epdLookup a page) before ->
  recent !! i = Some archive ->
  archive_fails archive e ->
  Eff.outcome (Analyzer.fetchGames epdLookup (before ++ i :: later) handle) = inl e.
Proof.
  intros Hfetch Hjson Hschema recent Hbefore Hi Hfails.
  rewrite (fetchGames_outcome epdLookup _ handle res j archives) by done. fold recent.
  rewrite (promise_all_first _ before i later e); [done| |].
  - apply Forall_forall. intros i' Hi' e'. rewrite !list_lookup_fmap.
    destruct (recent !! i') as [a|] eqn:Ha; [|done]. simpl.
    destruct (proj1 (Forall_forall _ _) Hbefore i' Hi' a Ha) as [page Hpage].
    apply archiveGames_page_iff in Hpage. by rewrite Hpage.
  - rewrite !list_lookup_fmap, Hi. simpl. f_equal. by apply archiveGames_fails.
Qed.
End FetchGamesMore.

Lemma fetchGames_games_witness :
  let run order :=
    Analyzer.fetchGames (engine := Demo.engine) (parser := Demo.parser2)
      (net := Demo.season_net "two" "january" "february") Demo.index order "alice" in
  let requests := [Fetched (Analyzer.archives_url "alice");
                   Fetched Demo.archive_2024_01; Fetched Demo.archive_2024_02] in
  Eff.outcome (run [1; 0]%nat) = Eff.outcome (run [0; 1]%nat) /\
  Eff.events (run [1; 0]%nat) = requests ++ [Replayed "1. e4 a6"; Replayed "1. e4 e5"] /\
  Eff.events (run [0; 1]%nat) = requests ++ [Replayed "1. e4 e5"; Replayed "1. e4 a6"].
Proof.
  cbv zeta.
  destruct (Eff.outcome (Analyzer.archiveGames (engine := Demo.engine) (parser := Demo.parser2)
                           (net := Demo.season_net "two" "january" "february") Demo.index
                           Demo.archive_2024_01)) as [e|january] eqn:Hjanuary;
    [by vm_compute in Hjanuary|].
  destruct (Eff.outcome (Analyzer.archiveGames (engine := Demo.engine) (parser := Demo.parser2)
                           (net := Demo.season_net "two" "january" "february") Demo.index
                           Demo.archive_2024_02)) as [e|february] eqn:Hfebruary;
    [by vm_compute in Hfebruary|].
  pose proof (proj1 (archiveGames_page_iff _ _ _) Hjanuary) as Hpage.
  pose proof (proj1 (archiveGames_page_iff _ _ _) Hfebruary) as Hpage'.
  pose proof (fetchGames_games (engine := Demo.engine) (parser := Demo.parser2)
                (net := Demo.season_net "two" "january" "february") Demo.index "alice" _ _
                [Demo.archive_2024_01; Demo.archive_2024_02] [january; february]
                eq_refl eq_refl eq_refl
                ltac:(repeat constructor; assumption)) as Hrun.
  destruct (Hrun [1; 0]%nat) as [Hgames Hevents].
  destruct (Hrun [0; 1]%nat) as [Hgames' Hevents'].
  vm_compute in Hjanuary, Hfebruary.
  injection Hjanuary as <-. injection Hfebruary as <-.
  split_and!.
  - by rewrite Hgames, Hgames'.
  - rewrite Hevents; [reflexivity|]. apply Permutation_swap.
  - rewrite Hevents'; [reflexivity|]. reflexivity.
Defined.

Lemma fetchGames_all_or_nothing_witness :
  let run january february order :=
    Eff.outcome
      (Analyzer.fetchGames (engine := Demo.engine) (parser := Demo.parser2)
         (net := Demo.season_net "two" january february) Demo.index order "alice") in
  run "<html>" "two" [1]%nat = inl ZodError /\
  run "<html>" "two" [0; 1]%nat = inl SyntaxError /\
  run "january" "<html>" [0; 1]%nat = inl SyntaxError.
Proof.
  cbv zeta. split_and!.
  - exact (fetchGames_all_or_nothing (engine := Demo.engine) (parser := Demo.parser2)
             (net := Demo.season_net "two" "<html>" "two") Demo.index "alice" _ _
             [Demo.archive_2024_01; Demo.archive_2024_02] [] [] 1 Demo.archive_2024_02 ZodError
             eq_refl eq_refl eq_refl (Forall_nil_2 _) eq_refl eq_refl).
  - exact (fetchGames_all_or_nothing (engine := Demo.engine) (parser := Demo.parser2)
             (net := Demo.season_net "two" "<html>" "two") Demo.index "alice" _ _
             [Demo.archive_2024_01; Demo.archive_2024_02] [] [1]%nat 0 Demo.archive_2024_01
             SyntaxError eq_refl eq_refl eq_refl (Forall_nil_2 _) eq_refl eq_refl).
  - destruct (Eff.outcome (Analyzer.archiveGames (engine := Demo.engine)
                             (parser := Demo.parser2)
                             (net := Demo.season_net "two" "january" "<html>") Demo.index
                             Demo.archive_2024_01)) as [e|january] eqn:Hjanuary;
      [by vm_compute in Hjanuary|].
    apply archiveGames_page_iff in Hjanuary.
    refine (fetchGames_all_or_nothing (engine := Demo.engine) (parser := Demo.parser2)
              (net := Demo.season_net "two" "january" "<html>") Demo.index "alice" _ _
              [Demo.archive_2024_01; Demo.archive_2024_02] [0]%nat [] 1 Demo.archive_2024_02
              SyntaxError eq_refl eq_refl eq_refl _ eq_refl eq_refl).
    constructor; [|constructor]. intros a [= <-]. by exists january.
Defined.

Lemma identifyOpening_outcomes_witness :
  (exists chess move,
      "1. e4 e5" <> "" /\ loadPgn (ChessEngine := Demo.engine) (Some "1. e4 e5") = Some chess /\
      move ∈ history chess /\ Demo.index !! epd_of (after move) = Some Demo.open_game) /\
  Forall (fun move => (∅ : gmap string OpeningData) !! epd_of (after move) = None)
    [Demo.e4; Demo.a6] /\
  (EngineError = EngineError /\ "1. d4" <> "" /\
   loadPgn (ChessEngine := Demo.engine) (Some "1. d4") = None).
Proof.
  split; [|split].
  - exact (proj1 (identifyOpening_outcomes (engine := Demo.engine) Demo.index "1. e4 e5")
             Demo.open_game eq_refl).
  - exact (proj1 (proj2 (identifyOpening_outcomes (engine := Demo.engine) ∅ "1. e4 a6"))
             Undefined {| history := [Demo.e4; Demo.a6]; fen := after Demo.a6 |}
             eq_refl eq_refl ltac:(done) eq_refl).
  - exact (proj2 (proj2 (identifyOpening_outcomes (engine := Demo.engine) Demo.index "1. d4"))
             EngineError eq_refl).
Defined.

Lemma fetchGames_list_failure_witness :
  let url := Analyzer.archives_url "carol" in
  let page text : Network :=
    fun _ => Some {| ok := true; status := 200; statusText := "OK"; body := text |} in
  let run net parser :=
    Analyzer.fetchGames (engine := Demo.engine) (net := net) (parser := parser)
      Demo.index [] "carol" in
  run (Demo.archive_net true 200 "OK") Demo.parser = ([Fetched url], inl (FetchError url)) /\
  run (page "<html>") Demo.parser = ([Fetched url], inl SyntaxError) /\
  run (page "games") Demo.parser = ([Fetched url], inl ZodError) /\
  run (page "{}") (fun _ => Some (JObject [("archives", JArray [])])) = ([Fetched url], inr []).
Proof.
  cbv zeta. split_and!.
  - exact (proj1 (fetchGames_list_failure (engine := Demo.engine)
                    (net := Demo.archive_net true 200 "OK") (parser := Demo.parser)
                    Demo.index [] "carol") eq_refl).
  - exact (proj1 (proj2 (fetchGames_list_failure (engine := Demo.engine)
                           (net := fun _ => Some {| ok := true; status := 200;
                                                    statusText := "OK"; body := "<html>" |})
                           (parser := Demo.parser) Demo.index [] "carol"))
             _ eq_refl eq_refl).
  - exact (proj1 (proj2 (proj2 (fetchGames_list_failure (engine := Demo.engine)
                           (net := fun _ => Some {| ok := true; status := 200;
                                                    statusText := "OK"; body := "games" |})
                           (parser := Demo.parser) Demo.index [] "carol")))
             _ _ eq_refl eq_refl eq_refl).
  - exact (proj2 (proj2 (proj2 (fetchGames_list_failure (engine := Demo.engine)
                           (net := fun _ => Some {| ok := true; status := 200;
                                                    statusText := "OK"; body := "{}" |})
                           (parser := fun _ => Some (JObject [("archives", JArray [])]))
                           Demo.index [] "carol")))
             _ _ eq_refl eq_refl eq_refl).
Defined.


(** ** The schema of a game *)

Section GameSchema.
(** X15. A property that [gameSchema] does not declare changes nothing:
    a game object parses to the same game, or fails as before, with
    the property set to any value. *)
Theorem gameSchema_ignores_unknown (props : JS.obj json) (k : string) (v : json) :
  k ∉ game_keys ->
  gameSchema (Some (JObject (JS.set k v props))) = gameSchema (Some (JObject props)).
Proof.
  intros Hk. unfold gameSchema, z.object, z.field.
  assert (Hget : forall k', k' ∈ game_keys -> JS.get k' (JS.set k v props) = JS.get k' props).
  { intros k' Hk'. rewrite get_set. destruct (decide (k = k')) as [->|]; done. }
  unfold game_keys in Hget.
  rewrite !Hget by set_solver. done.
Qed.

Lemma z_field_is_Some {A} (s : z.schema A) k props a :
  s None = None -> z.field k s props = Some a -> is_Some (JS.get k props).
Proof. unfold z.field. intros Hnone. destruct (JS.get k props); [eauto|congruence]. Qed.

Lemma gameSchema_accepted (props : JS.obj json) (g : Game) :
  gameSchema (Some (JObject props)) = Some g ->
  Forall (fun k => is_Some (JS.get k props)) required_game_keys.
Proof.
  unfold gameSchema, z.object. intros Hgame.
  destruct (z.field "url" z.string props) eqn:H1; simpl in Hgame; [|done].
  destruct (z.field "pgn" z.string props) eqn:H2; simpl in Hgame; [|done].
  destruct (z.field "time_control" z.string props) eqn:H3; simpl in Hgame; [|done].
  destruct (z.field "end_time" z.number props) eqn:H4; simpl in Hgame; [|done].
  destruct (z.field "rated" z.boolean props) eqn:H5; simpl in Hgame; [|done].
  destruct (z.field "tcn" (z.optional z.string) props) eqn:H6; simpl in Hgame; [|done].
  destruct (z.field "uuid" z.string props) eqn:H7; simpl in Hgame; [|done].
  destruct (z.field "initial_setup" z.string props) eqn:H8; simpl in Hgame; [|done].
  destruct (z.field "fen" z.string props) eqn:H9; simpl in Hgame; [|done].
  destruct (z.field "time_class" z.string props) eqn:H10; simpl in Hgame; [|done].
  destruct (z.field "rules" z.string props) eqn:H11; simpl in Hgame; [|done].
  destruct (z.field "white" playerSchema props) eqn:H12; simpl in Hgame; [|done].
  destruct (z.field "black" playerSchema props) eqn:H13; simpl in Hgame; [|done].
  unfold required_game_keys.
  repeat (constructor; [by eapply z_field_is_Some; [|eassumption]|]).
  constructor.
Qed.

(** X16. A game object without one of the twelve properties that are
    not optional is turned down. *)
Theorem gameSchema_requires (props : JS.obj json) (k : string) :
  k ∈ required_game_keys ->
  JS.get k props = None ->
  gameSchema (Some (JObject props)) = None.
Proof.
  intros Hk Hget.
  destruct (gameSchema (Some (JObject props))) as [g|] eqn:Hgame; [|done].
  apply gameSchema_accepted in Hgame.
  apply (proj1 (Forall_forall _ _) Hgame) in Hk. rewrite Hget in Hk.
  by destruct Hk.
Qed.
End GameSchema.

Lemma gameSchema_ignores_unknown_witness :
  exists props,
    Demo.game_json "1. e4 e5" "chess" (Demo.player "Alice" "win") (Demo.player "bob" "resigned")
    = JObject props /\
    is_Some (gameSchema (Some (JObject props))) /\
    gameSchema (Some (JObject (JS.set "tournament" (JString "https://example.org/t/1") props)))
    = gameSchema (Some (JObject props)).
Proof.
  eexists. split; [reflexivity|]. split.
  - vm_compute. by eexists.
  - apply gameSchema_ignores_unknown. apply (bool_decide_unpack _). by vm_compute.
Defined.

Lemma gameSchema_requires_witness :
  gameSchema (Some (JObject [("url", JString "https://www.chess.com/game/live/1");
                             ("pgn", JString "1. e4")])) = None.
Proof.
  apply (gameSchema_requires _ "rules"); [apply (bool_decide_unpack _); by vm_compute|reflexivity].
Defined.


(** ** Counting, in full *)

Section StatsMore.
Context {strcase : StringCase}.

Lemma openingStats_from handle st games :
  foldl (Analyzer.record_game handle) st games
  = foldl (Analyzer.record_game handle) st (counted_games games).
Proof.
  revert st. induction games as [|g games IH]; intros st; [done|].
  unfold counted_games. rewrite filter_cons. simpl.
  destruct (decide (matched (opening g) = true)) as [Hg|Hg].
  - simpl. apply IH.
  - rewrite record_game_skip by (by destruct (matched (opening g))). apply IH.
Qed.

(** X17. The games without an opening count for nothing: the
    accumulators are those of the games with an opening alone. *)
Theorem openingStats_counted_games (handle : string) (games : list GameWithOpening) :
  Analyzer.openingStats handle games = Analyzer.openingStats handle (counted_games games).
Proof. apply openingStats_from. Qed.

(** X18. The handle is read without its case: two handles with the
    same lower-case form give the same accumulators. *)
Theorem openingStats_handle_case (handle handle' : string) (games : list GameWithOpening) :
  toLowerCase handle = toLowerCase handle' ->
  Analyzer.openingStats handle games = Analyzer.openingStats handle' games.
Proof.
  intros Hcase. unfold Analyzer.openingStats.
  generalize ({| Analyzer.stats_white := []; Analyzer.stats_black := [] |}).
  induction games as [|g games IH]; intros st; [done|]. simpl. rewrite <- IH. f_equal.
  unfold Analyzer.record_game, Analyzer.gameResult, Analyzer.playerColor.
  by rewrite Hcase.
Qed.

Section Tally.
Variable f : Analyzer.Stats -> N.
Variable weight : Analyzer.Outcome -> N.
Hypothesis f_initial : f Analyzer.initialStats = 0%N.
Hypothesis f_count : forall n r s,
    (n < 2 ^ 53)%N -> counted n s ->
    f (Analyzer.count r s) = (f s + weight r)%N.

Local Abbreviation sum := (foldr (fun (e : string * Analyzer.Stats) acc => f e.2 + acc)%N 0%N).

Lemma sum_set_fresh k v (o : JS.obj Analyzer.Stats) :
  JS.get k o = None -> sum (JS.set k v o) = (sum o + f v)%N.
Proof.
  induction o as [|[k0 s0] o IH]; simpl; [lia|].
  destruct (decide (k0 = k)); [done|]. intros Hget. simpl. rewrite IH by done. lia.
Qed.

Lemma sum_set_old k v s (o : JS.obj Analyzer.Stats) :
  JS.get k o = Some s -> (sum (JS.set k v o) + f s = sum o + f v)%N.
Proof.
  induction o as [|[k0 s0] o IH]; simpl; [done|].
  destruct (decide (k0 = k)).
  - intros [= ->]. simpl. lia.
  - intros Hget. simpl. specialize (IH Hget). lia.
Qed.

Lemma tally_with_table c t st :
  (tally f (Analyzer.with_table c t st) + sum (Analyzer.table c st)
   = tally f st + sum t)%N.
Proof. unfold tally. destruct c; simpl; lia. Qed.

Lemma tally_record_game handle games g data :
  (N.of_nat (length games) < 2 ^ 53)%N ->
  opening g = Found data ->
  tally f (Analyzer.record_game handle (Analyzer.openingStats handle games) g)
  = (tally f (Analyzer.openingStats handle games)
     + weight (Analyzer.gameResult handle (game g)))%N.
Proof.
  intros Hlen Hopen. unfold Analyzer.record_game. rewrite Hopen. cbv zeta.
  set (st := Analyzer.openingStats handle games).
  set (c := Analyzer.playerColor handle (game g)).
  set (k := Analyzer.name_key data).
  set (r := Analyzer.gameResult handle (game g)).
  pose proof (tally_with_table c
    (JS.set k (Analyzer.count r (default Analyzer.initialStats
        (JS.get k match JS.get k (Analyzer.table c st) with
                  | Some _ => Analyzer.table c st
                  | None => JS.set k Analyzer.initialStats (Analyzer.table c st)
                  end)))
       match JS.get k (Analyzer.table c st) with
       | Some _ => Analyzer.table c st
       | None => JS.set k Analyzer.initialStats (Analyzer.table c st)
       end) st) as Htally.
  destruct (JS.get k (Analyzer.table c st)) as [s|] eqn:Hget.
  - rewrite Hget in *. simpl default in *.
    pose proof (sum_set_old k (Analyzer.count r s) s _ Hget) as Hsum.
    rewrite (f_count (N.of_nat (length games)) r s) in *;
      [lia|done|by apply (openingStats_counted handle games c k); [lia|]].
  - rewrite get_set, decide_True in * by done. simpl default in *.
    pose proof (sum_set_old k (Analyzer.count r Analyzer.initialStats)
                  Analyzer.initialStats (JS.set k Analyzer.initialStats (Analyzer.table c st))
                  ltac:(by rewrite get_set, decide_True)) as Hsum.
    pose proof (sum_set_fresh k Analyzer.initialStats _ Hget) as Hfresh.
    rewrite (f_count 0 r Analyzer.initialStats) in *;
      [lia|lia|apply counted_initial].
Qed.

Lemma tally_openingStats handle games :
  (N.of_nat (length games) <= 2 ^ 53)%N ->
  tally f (Analyzer.openingStats handle games)
  = foldr (fun g acc => weight (Analyzer.gameResult handle (game g)) + acc)%N 0%N
      (counted_games games).
Proof.
  induction games as [|g games IH] using rev_ind; intros Hlen; [done|].
  rewrite length_app in Hlen. simpl in Hlen.
  rewrite openingStats_snoc. unfold counted_games. rewrite filter_app, foldr_app.
  rewrite filter_cons, filter_nil.
  destruct (opening g) as [| |data] eqn:Hopen; simpl.
  1,2: rewrite record_game_skip by (by rewrite Hopen); apply IH; lia.
  rewrite (tally_record_game _ _ _ data), IH by (done || lia).
  generalize (weight (Analyzer.gameResult handle (game g))). intros w.
  unfold counted_games. clear. induction (filter _ games) as [|g' l IHl]; simpl; lia.
Qed.
End Tally.

Lemma foldr_ones {A} (l : list A) :
  foldr (fun _ acc => 1 + acc)%N 0%N l = N.of_nat (length l).
Proof. induction l as [|x l IH]; [done|]. simpl foldr. rewrite IH. simpl length. lia. Qed.

Lemma foldr_outcomes handle (r : Analyzer.Outcome) (l : list GameWithOpening) :
  foldr (fun g acc =>
           (if decide (Analyzer.gameResult handle (game g) = r) then 1 else 0) + acc)%N 0%N l
  = N.of_nat (length (filter (fun g => Analyzer.gameResult handle (game g) = r) l)).
Proof.
  induction l as [|g l IH]; [done|]. simpl foldr. rewrite IH, filter_cons.
  destruct (decide _); simpl length; lia.
Qed.

(** X19. Every game with an opening is counted once. While the games
    are at most [2^53], the totals of all the accumulators sum to the
    number of games with an opening, and their wins, losses and draws
    to the numbers of these games of each outcome. *)
Theorem stats_tally (handle : string) (games : list GameWithOpening) :
  (N.of_nat (length games) <= 2 ^ 53)%N ->
  let st := Analyzer.openingStats handle games in
  let outcome g := Analyzer.gameResult handle (game g) in
  tally Analyzer.total st = N.of_nat (length (counted_games games)) /\
  tally Analyzer.wins st
    = N.of_nat (length (filter (fun g => outcome g = Analyzer.Win) (counted_games games))) /\
  tally Analyzer.losses st
    = N.of_nat (length (filter (fun g => outcome g = Analyzer.Loss) (counted_games games))) /\
  tally Analyzer.draws st
    = N.of_nat (length (filter (fun g => outcome g = Analyzer.Draw) (counted_games games))).
Proof.
  intros Hlen st outcome. unfold st, outcome.
  split_and!.
  - rewrite (tally_openingStats Analyzer.total (fun _ => 1%N)); [|done| |done].
    + apply foldr_ones.
    + intros n r s Hn [Hsum Hle]. destruct r; simpl; rewrite incr_exact; lia.
  - rewrite (tally_openingStats Analyzer.wins
               (fun r => if decide (r = Analyzer.Win) then 1%N else 0%N)); [|done| |done].
    + apply foldr_outcomes.
    + intros n r s Hn [Hsum Hle]. destruct r; simpl; rewrite ?incr_exact; lia.
  - rewrite (tally_openingStats Analyzer.losses
               (fun r => if decide (r = Analyzer.Loss) then 1%N else 0%N)); [|done| |done].
    + apply foldr_outcomes.
    + intros n r s Hn [Hsum Hle]. destruct r; simpl; rewrite ?incr_exact; lia.
  - rewrite (tally_openingStats Analyzer.draws
               (fun r => if decide (r = Analyzer.Draw) then 1%N else 0%N)); [|done| |done].
    + apply foldr_outcomes.
    + intros n r s Hn [Hsum Hle]. destruct r; simpl; rewrite ?incr_exact; lia.
Qed.
End StatsMore.

Lemma openingStats_handle_case_witness :
  Analyzer.openingStats (strcase := Demo.ascii_case) "ALICE" Demo.three_games
  = Analyzer.openingStats (strcase := Demo.ascii_case) "alice" Demo.three_games.
Proof.
  exact (openingStats_handle_case (strcase := Demo.ascii_case) "ALICE" "alice"
           Demo.three_games eq_refl).
Defined.

Lemma stats_tally_witness :
  tally Analyzer.total
    (Analyzer.openingStats (strcase := Demo.ascii_case) "alice" Demo.three_games) = 3%N.
Proof.
  exact (proj1 (stats_tally (strcase := Demo.ascii_case) "alice" Demo.three_games
                  ltac:(vm_compute; discriminate))).
Defined.


(** ** The lists, in full *)

Section TopMore.
Context {strcase : StringCase}.

Lemma qualifying_rates handle games c :
  Forall (fun o => is_rate (Analyzer.winRate o) = true)
    (filter (fun opening => (15 < Analyzer.total (Analyzer.stats opening))%N)
       (Analyzer.rank <$> JS.entries (Analyzer.table c (Analyzer.openingStats handle games)))).
Proof.
  apply Forall_forall. intros o [_ Hin]%list_elem_of_filter.
  apply list_elem_of_fmap in Hin as ([k s] & -> & Hin). simpl.
  apply win_rate_is_rate. apply (openingStats_bounded handle games c k).
  apply elem_get_Some; [apply openingStats_NoDup|].
  by rewrite <- (entries_perm (Analyzer.table c _)).
Qed.

Lemma sortOpenings_sorted handle games c :
  StronglySorted (fun a b => rate_le (Analyzer.winRate b) (Analyzer.winRate a))
    (Analyzer.sortOpenings (Analyzer.table c (Analyzer.openingStats handle games))).
Proof.
  unfold Analyzer.sortOpenings.
  apply (sort_sorted Analyzer.compareFn (fun o => units (Analyzer.winRate o))
           (fun o => is_rate (Analyzer.winRate o) = true) compareFn_key).
  apply qualifying_rates.
Qed.

(** X20. Openings of equal win rate stay in the order in which
    [Object.entries] lists them: for each value, the entries of
    [sortOpenings] of that win rate are the accumulators of a total
    above 15 of that win rate, in the order of the table. *)
Theorem sortOpenings_ties (handle : string) (games : list GameWithOpening)
    (c : Analyzer.Color) (u : option Z) :
  let tbl := Analyzer.table c (Analyzer.openingStats handle games) in
  filter (fun o => units (Analyzer.winRate o) = u) (Analyzer.sortOpenings tbl)
  = filter (fun o => units (Analyzer.winRate o) = u)
      (filter (fun opening => (15 < Analyzer.total (Analyzer.stats opening))%N)
         (Analyzer.rank <$> JS.entries tbl)).
Proof.
  cbv zeta. unfold Analyzer.sortOpenings.
  apply (sort_stable Analyzer.compareFn (fun o => units (Analyzer.winRate o))
           (fun o => is_rate (Analyzer.winRate o) = true) compareFn_key).
  apply qualifying_rates.
Qed.

(** X21. The ten entries kept are the best: [sortOpenings] holds every
    accumulator of a total above 15 once, no entry it drops after the
    tenth has a greater win rate than an entry kept, and with at most
    ten such accumulators all are kept. *)
Theorem top_ten_best (handle : string) (games : list GameWithOpening) (c : Analyzer.Color) :
  let tbl := Analyzer.table c (Analyzer.openingStats handle games) in
  let all := Analyzer.sortOpenings tbl in
  all ≡ₚ filter (fun opening => (15 < Analyzer.total (Analyzer.stats opening))%N)
           (Analyzer.rank <$> JS.entries tbl) /\
  (forall kept dropped,
      kept ∈ Analyzer.top c handle games -> dropped ∈ drop 10 all ->
      rate_le (Analyzer.winRate dropped) (Analyzer.winRate kept)) /\
  ((length all <= 10)%nat -> Analyzer.top c handle games = all).
Proof.
  cbv zeta. split_and!.
  - apply sort_perm.
  - intros kept dropped Hkept Hdropped.
    pose proof (sortOpenings_sorted handle games c) as Hsorted.
    rewrite <- (take_drop 10) in Hsorted.
    by apply (StronglySorted_app_1_elem_of _ _ _ kept dropped Hsorted).
  - intros Hlen. unfold Analyzer.top, JS.slice_to. by apply take_ge.
Qed.

(** X22. With at most 15 games with an opening nothing is listed, for
    either color. *)
Theorem top_needs_sixteen (handle : string) (games : list GameWithOpening)
    (c : Analyzer.Color) :
  (length (counted_games games) <= 15)%nat ->
  Analyzer.top c handle games = [].
Proof.
  intros Hfew. unfold Analyzer.top, JS.slice_to.
  destruct (Analyzer.sortOpenings _) as [|o l] eqn:Hsort; [done|]. exfalso.
  assert (Ho : o ∈ Analyzer.sortOpenings
                 (Analyzer.table c (Analyzer.openingStats handle games)))
    by (rewrite Hsort; left).
  apply sortOpenings_elem in Ho as (Htotal & Hget & _); [|apply openingStats_NoDup].
  unfold Analyzer.openingStats in Hget. rewrite openingStats_from in Hget.
  apply (openingStats_counted handle (counted_games games)) in Hget as [_ Hle]; lia.
Qed.
End TopMore.

Lemma top_needs_sixteen_witness :
  Analyzer.top (strcase := Demo.ascii_case) Analyzer.White "alice" Demo.three_games = [].
Proof.
  exact (top_needs_sixteen (strcase := Demo.ascii_case) "alice" Demo.three_games
           Analyzer.White ltac:(vm_compute; lia)).
Defined.

Lemma top_ten_best_witness :
  let all := Analyzer.sortOpenings
               (Analyzer.table Analyzer.White
                  (Analyzer.openingStats (strcase := Demo.ascii_case) "alice" Demo.season)) in
  let kept := Analyzer.top (strcase := Demo.ascii_case) Analyzer.White "alice" Demo.season in
  Analyzer.openingName <$> kept = ["K"; "J"; "I"; "H"; "G"; "F"; "E"; "D"; "C"; "B"] /\
  Analyzer.openingName <$> drop 10 all = ["A"] /\
  Forall (fun o => Forall (fun dropped => rate_le (Analyzer.winRate dropped) (Analyzer.winRate o))
                     (drop 10 all)) kept /\
  Analyzer.top (strcase := Demo.ascii_case) Analyzer.White "alice" (take 32 Demo.season)
  = Analyzer.sortOpenings
      (Analyzer.table Analyzer.White
         (Analyzer.openingStats (strcase := Demo.ascii_case) "alice" (take 32 Demo.season))).
Proof.
  cbv zeta. split_and!.
  - by vm_compute.
  - by vm_compute.
  - apply Forall_forall. intros o Ho. apply Forall_forall. intros dropped Hdropped.
    exact (proj1 (proj2 (top_ten_best (strcase := Demo.ascii_case) "alice" Demo.season
                           Analyzer.White)) o dropped Ho Hdropped).
  - exact (proj2 (proj2 (top_ten_best (strcase := Demo.ascii_case) "alice"
                           (take 32 Demo.season) Analyzer.White))
             ltac:(vm_compute; lia)).
Defined.


(** ** The win rates at the ends *)

Section RateEnds.
Local Abbreviation prec := F64.prec.
Local Abbreviation emax := F64.emax.
Local Open Scope Z_scope.

(** The double of a counter: a mantissa of 53 digits. *)
Lemma of_N_canonical n :
  (0 < n <= 2 ^ 53)%N ->
  exists m e, F64.of_N n = S754_finite false m e /\ Z.pos (digits2_pos m) = 53.
Proof.
  intros Hn. destruct n as [|p]; [lia|].
  destruct (decide (N.pos p = 2 ^ 53)%N) as [->|Hne].
  { exists 4503599627370496%positive, 1. split; by vm_compute. }
  unfold F64.of_N. simpl binary_normalize. unfold binary_round.
  pose proof (digits2_bounds p) as [Hlow Hhigh].
  assert (Hd : Z.pos (digits2_pos p) <= 53).
  { assert (Hpow : 2 ^ (Z.pos (digits2_pos p) - 1) < 2 ^ 53) by lia.
    apply Z.pow_lt_mono_r_iff in Hpow; lia. }
  rewrite fexp_eq. unfold shl_align.
  destruct (Z.max (Z.pos (digits2_pos p) + 0 - 53) (-1074) - 0) as [|d|d] eqn:Hshift; [|lia|].
  - rewrite binary_round_aux_canonical by lia. exists p, 0. split; [done|lia].
  - rewrite binary_round_aux_canonical by (rewrite ?iter_xO_digits; lia).
    eexists _, _. split; [done|]. rewrite iter_xO_digits. lia.
Qed.

(** A number divided by itself is one. *)
Lemma div_self m e :
  Z.pos (digits2_pos m) = 53 ->
  F64.div (S754_finite false m e) (S754_finite false m e)
  = S754_finite false 4503599627370496 (-52).
Proof.
  intros Hd. unfold F64.div, SFdiv, SFdiv_core_binary. simpl Zdigits2. rewrite Hd.
  replace (53 + e - (53 + e)) with 0 by lia. replace (e - e) with 0 by lia.
  change (Z.min (fexp prec emax 0) 0) with (-53).
  change (0 - -53) with 53. cbv iota.
  rewrite Z.shiftl_mul_pow2 by lia.
  pose proof (Z.div_mul (2 ^ 53) (Z.pos m) ltac:(lia)) as Hq.
  pose proof (Z.mod_mul (2 ^ 53) (Z.pos m) ltac:(lia)) as Hr.
  rewrite (Z.mul_comm (2 ^ 53)) in Hq, Hr. unfold Z.div, Z.modulo in Hq, Hr.
  destruct (Z.div_eucl (Z.pos m * 2 ^ 53) (Z.pos m)) as [q r]. subst q r.
  assert (new_location (Z.pos m) 0 = loc_Exact) as ->
    by (unfold new_location, new_location_even, new_location_odd; by destruct (Z.even _)).
  by vm_compute.
Qed.

(** X23. The win rate at its ends, for a total of at most [2^53]:
    without a win it is [+0], and with only wins it is exactly 100. *)
Theorem win_rate_ends (s : Analyzer.Stats) :
  (Analyzer.total s <= 2 ^ 53)%N ->
  (Analyzer.wins s = 0%N -> Analyzer.win_rate s = F64.zero) /\
  ((0 < Analyzer.total s)%N -> Analyzer.wins s = Analyzer.total s ->
   Analyzer.win_rate s = Analyzer.hundred).
Proof.
  intros Htotal. unfold Analyzer.win_rate.
  destruct (N.eqb_spec (Analyzer.total s) 0) as [Hzero|Hpos].
  - split; [done|lia].
  - destruct (of_N_canonical (Analyzer.total s) ltac:(lia)) as (m & e & Hof & Hd). split.
    + intros ->. by rewrite Hof.
    + intros _ ->. rewrite Hof, div_self by done. by vm_compute.
Qed.
End RateEnds.

Lemma win_rate_ends_witness :
  Analyzer.win_rate {| Analyzer.total := 20; Analyzer.wins := 20;
                       Analyzer.losses := 0; Analyzer.draws := 0 |} = Analyzer.hundred.
Proof.
  exact (proj2 (win_rate_ends {| Analyzer.total := 20; Analyzer.wins := 20;
                                 Analyzer.losses := 0; Analyzer.draws := 0 |}
                  ltac:(vm_compute; discriminate))
           ltac:(reflexivity) eq_refl).
Defined.
